(** * Registry upsert: version model, upsert decisions, merge and publish workflow

    Shallow embedding of [scripts/lib/version_compare.py],
    [scripts/lib/registry_merge.py], [scripts/lib/s3_operations.py] and the
    [main] routine of [scripts/registry-upsert.py]. *)

From Stdlib Require Import Bool Arith Lia List String Ascii.
Import ListNotations.
Open Scope string_scope.
Open Scope list_scope.
Open Scope nat_scope.

(** Option bind, the exception monad of the pure code: [None] is a raised
    exception ([KeyError], [ValueError]). *)
Notation "x <- m ;; k" := (match m with Some x => k | None => None end)
  (at level 61, m at next level, right associativity).

(* ------------------------------------------------------------------ *)
(** ** String helpers (Python [str.split], [str.strip], prefixes) *)

Fixpoint split_on (c : ascii) (s : string) : list string :=
  match s with
  | EmptyString => [EmptyString]
  | String a s' =>
      let rest := split_on c s' in
      if Ascii.eqb a c then EmptyString :: rest
      else match rest with
           | [] => [String a EmptyString]
           | h :: t => String a h :: t
           end
  end.

Definition is_ws (a : ascii) : bool :=
  Ascii.eqb a " "%char || Ascii.eqb a (ascii_of_nat 9) || Ascii.eqb a (ascii_of_nat 10)
  || Ascii.eqb a (ascii_of_nat 13).

Fixpoint lstrip (s : string) : string :=
  match s with
  | EmptyString => EmptyString
  | String a s' => if is_ws a then lstrip s' else s
  end.

Fixpoint rstrip (s : string) : string :=
  match s with
  | EmptyString => EmptyString
  | String a s' =>
      let r := rstrip s' in
      if is_ws a && String.eqb r "" then EmptyString else String a r
  end.

Definition strip (s : string) : string := rstrip (lstrip s).

(** [strip_prefix p s = Some r] iff [s = p ++ r]. *)
Fixpoint strip_prefix (p s : string) : option string :=
  match p, s with
  | EmptyString, _ => Some s
  | String a p', String b s' => if Ascii.eqb a b then strip_prefix p' s' else None
  | String _ _, EmptyString => None
  end.

Definition digit_of (a : ascii) : option nat :=
  let n := nat_of_ascii a in
  if (48 <=? n) && (n <=? 57) then Some (n - 48) else None.

Fixpoint parse_digits (acc : nat) (s : string) : option nat :=
  match s with
  | EmptyString => Some acc
  | String a s' => d <- digit_of a ;; parse_digits (acc * 10 + d) s'
  end.

Definition parse_nat (s : string) : option nat :=
  match s with
  | EmptyString => None
  | _ => parse_digits 0 s
  end.

Fixpoint all_some {A} (l : list (option A)) : option (list A) :=
  match l with
  | [] => Some []
  | o :: l' => x <- o ;; r <- all_some l' ;; Some (x :: r)
  end.

(* ------------------------------------------------------------------ *)
(** ** Version model ([version_compare.py])

    [packaging.version.Version] is modelled on its release segment: a
    version is the list of its dotted numeric components, compared
    component-wise after padding the shorter one with zeros (so [1.0] and
    [1.0.0] are equal, as in PEP 440).  Pre-, post- and dev-release suffixes
    are outside this model: such strings do not parse here. *)

Definition Version := list nat.

Inductive ConstraintRelationship := DISJOINT | SAME | SUPERSET | SUBSET | PARTIAL.
Inductive VersionComparison := NEWER | VSAME | OLDER.

Definition parse_version (version_str : string) : option Version :=
  all_some (map parse_nat (split_on "." version_str)).

Definition pad (n : nat) (v : Version) : Version := v ++ repeat 0 (n - List.length v).

Fixpoint lex_cmp (a b : list nat) : comparison :=
  match a, b with
  | x :: a', y :: b' => match Nat.compare x y with Eq => lex_cmp a' b' | c => c end
  | [], [] => Eq
  | [], _ :: _ => Lt
  | _ :: _, [] => Gt
  end.

Definition ver_cmp (a b : Version) : comparison :=
  let n := Nat.max (List.length a) (List.length b) in lex_cmp (pad n a) (pad n b).

Definition ver_eqb (a b : Version) : bool :=
  match ver_cmp a b with Eq => true | _ => false end.

Definition compare_versions (v1 v2 : string) : option VersionComparison :=
  ver1 <- parse_version v1 ;;
  ver2 <- parse_version v2 ;;
  Some (match ver_cmp ver1 ver2 with Gt => NEWER | Lt => OLDER | Eq => VSAME end).

(** Specifier operators of [packaging.specifiers]. *)
Inductive Op := OpCompatible | OpEq | OpNe | OpLe | OpGe | OpLt | OpGt.

Definition Specifier : Type := Op * Version.
(** A [SpecifierSet]: the conjunction of its specifiers. *)
Definition SpecifierSet : Type := list Specifier.

Definition op_table : list (string * Op) :=
  [("~=", OpCompatible); ("==", OpEq); ("!=", OpNe); ("<=", OpLe); (">=", OpGe);
   ("<", OpLt); (">", OpGt)].

Fixpoint parse_op (tbl : list (string * Op)) (s : string) : option (Op * string) :=
  match tbl with
  | [] => None
  | (p, o) :: tbl' =>
      match strip_prefix p s with
      | Some rest => Some (o, rest)
      | None => parse_op tbl' s
      end
  end.

Definition parse_specifier (s : string) : option Specifier :=
  orest <- parse_op op_table s ;;
  let (o, rest) := orest in
  v <- parse_version (strip rest) ;;
  match o with
  | OpCompatible => if 2 <=? List.length v then Some (o, v) else None
  | _ => Some (o, v)
  end.

Definition parse_constraint (constraint_str : string) : option SpecifierSet :=
  all_some (map parse_specifier
    (filter (fun p => negb (String.eqb p "")) (map strip (split_on "," constraint_str)))).

Definition prefix_match (p v : Version) : bool :=
  match lex_cmp (firstn (List.length p) (pad (List.length p) v)) p with Eq => true | _ => false end.

Definition specifier_contains (sp : Specifier) (v : Version) : bool :=
  let '(o, w) := sp in
  match o, ver_cmp v w with
  | OpEq, Eq => true
  | OpEq, _ => false
  | OpNe, Eq => false
  | OpNe, _ => true
  | OpLe, Gt => false
  | OpLe, _ => true
  | OpGe, Lt => false
  | OpGe, _ => true
  | OpLt, Lt => true
  | OpLt, _ => false
  | OpGt, Gt => true
  | OpGt, _ => false
  | OpCompatible, Lt => false
  | OpCompatible, _ => prefix_match (removelast w) v
  end.

(** [version in spec]. *)
Definition spec_contains (spec : SpecifierSet) (v : Version) : bool :=
  forallb (fun sp => specifier_contains sp v) spec.

(** *** Sampling-based constraint comparison

    [constraints_overlap], [is_superset], [constraints_equal] and
    [compare_constraints] only ever ask membership questions of the parsed
    specifier sets on a fixed list of test versions; they are written once
    for any membership test and any list of samples. *)
Section Sampling.
Variables (V S : Type) (contains : S -> V -> bool) (samples : list V).

Definition sample_overlap (s1 s2 : S) : bool :=
  existsb (fun v => contains s1 v && contains s2 v) samples.

Definition sample_superset (s1 s2 : S) : bool :=
  forallb (fun v => negb (contains s2 v && negb (contains s1 v))) samples.

Definition sample_equal (s1 s2 : S) : bool :=
  forallb (fun v => Bool.eqb (contains s1 v) (contains s2 v)) samples.

Definition sample_relationship (s1 s2 : S) : ConstraintRelationship :=
  if sample_equal s1 s2 then SAME
  else if negb (sample_overlap s1 s2) then DISJOINT
  else
    let c1_superset := sample_superset s1 s2 in
    let c2_superset := sample_superset s2 s1 in
    if c1_superset && negb c2_superset then SUPERSET
    else if c2_superset && negb c1_superset then SUBSET
    else PARTIAL.

Lemma sample_equal_sym s1 s2 : sample_equal s1 s2 = sample_equal s2 s1.
Proof.
  unfold sample_equal; induction samples as [|v vs IH]; simpl; auto.
  rewrite IH; destruct (contains s1 v), (contains s2 v); reflexivity.
Qed.

Lemma sample_overlap_sym s1 s2 : sample_overlap s1 s2 = sample_overlap s2 s1.
Proof.
  unfold sample_overlap; induction samples as [|v vs IH]; simpl; auto.
  rewrite IH, andb_comm; reflexivity.
Qed.

Lemma sample_relationship_sym s1 s2 :
  (sample_relationship s1 s2 = SUPERSET <-> sample_relationship s2 s1 = SUBSET) /\
  (sample_relationship s1 s2 = SAME <-> sample_relationship s2 s1 = SAME) /\
  (sample_relationship s1 s2 = DISJOINT <-> sample_relationship s2 s1 = DISJOINT).
Proof.
  unfold sample_relationship.
  rewrite (sample_equal_sym s2 s1), (sample_overlap_sym s2 s1).
  destruct (sample_equal s1 s2), (sample_overlap s1 s2),
    (sample_superset s1 s2), (sample_superset s2 s1);
    simpl; repeat split; intro H; try discriminate H; reflexivity.
Qed.
End Sampling.

Arguments sample_overlap {V S}.
Arguments sample_superset {V S}.
Arguments sample_equal {V S}.
Arguments sample_relationship {V S}.

(** [generate_test_versions]: majors 0..2, minors 0..19, patches 0..4, then
    the commonly used versions not yet present, then [sorted]. *)
Fixpoint insert_sorted (v : Version) (l : list Version) : list Version :=
  match l with
  | [] => [v]
  | w :: l' => match ver_cmp v w with Lt => v :: l | _ => w :: insert_sorted v l' end
  end.

Definition sort_versions (l : list Version) : list Version :=
  fold_right insert_sorted [] (rev l).

Definition version_grid : list Version :=
  flat_map (fun major =>
    flat_map (fun minor => map (fun patch => [major; minor; patch]) (seq 0 5)) (seq 0 20))
    (seq 0 3).

(** The literal list [specific] of the source, parsed. *)
Definition specific_versions : list Version :=
  [[0;8;0]; [0;8;1]; [0;9;0]; [0;9;5]; [0;10;0]; [1;0;0]; [1;0;1]; [1;1;0]; [1;2;0]].

Definition generate_test_versions : list Version :=
  let versions :=
    fold_left (fun acc v => if existsb (ver_eqb v) acc then acc else acc ++ [v])
      specific_versions version_grid in
  sort_versions versions.

(** [get_test_versions]: the cache is transparent, it always yields
    [generate_test_versions]. *)
Definition get_test_versions : list Version := generate_test_versions.

Definition constraints_overlap (c1 c2 : string) : option bool :=
  spec1 <- parse_constraint c1 ;; spec2 <- parse_constraint c2 ;;
  Some (sample_overlap spec_contains get_test_versions spec1 spec2).

Definition is_superset (c1 c2 : string) : option bool :=
  spec1 <- parse_constraint c1 ;; spec2 <- parse_constraint c2 ;;
  Some (sample_superset spec_contains get_test_versions spec1 spec2).

Definition constraints_equal (c1 c2 : string) : option bool :=
  spec1 <- parse_constraint c1 ;; spec2 <- parse_constraint c2 ;;
  Some (sample_equal spec_contains get_test_versions spec1 spec2).

Definition compare_constraints (c1 c2 : string) : option ConstraintRelationship :=
  eq <- constraints_equal c1 c2 ;;
  if eq then Some SAME else
  ov <- constraints_overlap c1 c2 ;;
  if negb ov then Some DISJOINT else
  c1_superset <- is_superset c1 c2 ;;
  c2_superset <- is_superset c2 c1 ;;
  if c1_superset && negb c2_superset then Some SUPERSET
  else if c2_superset && negb c1_superset then Some SUBSET
  else Some PARTIAL.

Definition validate_constraint (constraint_str : string) : bool :=
  if String.eqb constraint_str "" then false
  else match parse_constraint constraint_str with Some _ => true | None => false end.

Definition validate_version (version_str : string) : bool :=
  if String.eqb version_str "" then false
  else match parse_version version_str with Some _ => true | None => false end.

(* ------------------------------------------------------------------ *)
(** ** Registry entries and upsert decisions ([registry_merge.py]) *)

(** A registry entry (a JSON object).  The three fields the core reads are
    optional, as [dict.get] sees them (an absent key and a JSON [null]
    both read as [None]); the other fields are opaque payload. *)
Record Entry := mkEntry {
  e_name : option string;
  e_version : option string;
  e_kamiwaza_version : option string;
  e_payload : list (string * string)
}.

(** Python truthiness of [entry.get(...)] for a string field. *)
Definition truthy (o : option string) : bool :=
  match o with Some s => negb (String.eqb s "") | None => false end.

Inductive UpsertAction := INSERT | REPLACE | FAIL.

(** The f-string templates of the reasons and errors, with their arguments. *)
Inductive Msg :=
| M_new_extension
| M_version_upgrade (existing_version new_version : string)
| M_version_exists_immutable (new_version : string)
| M_cannot_mutate (new_version : string)
| M_cannot_downgrade_reason (existing_version new_version : string)
| M_cannot_downgrade (existing_version new_version : string)
| M_missing_kamiwaza_version
| M_v2_requires_kamiwaza_version
| M_existing_missing_kamiwaza_version
| M_existing_malformed (name : string)
| M_version_with_constraint_exists (new_version new_constraint : string)
| M_would_narrow (existing_constraint new_constraint : string)
| M_cannot_narrow (existing_constraint new_constraint : string)
| M_partial_overlap_reason (existing_constraint new_constraint : string)
| M_partial_overlap (existing_constraint new_constraint : string)
| M_replacing (count : nat)
| M_disjoint_kamiwaza_version (new_constraint : string)
| M_new_extension_forced
| M_forced_replace (count : nat).

Record UpsertResult := mkUpsertResult {
  name : string;
  action : UpsertAction;
  reason : Msg;
  new_entry : Entry;
  replaced_entries : list Entry;
  error : option Msg
}.

Definition determine_upsert_action_v1 (ne : Entry) (existing_entries : list Entry)
  : option UpsertResult :=
  name <- e_name ne ;;
  new_version <- e_version ne ;;
  match existing_entries with
  | [] => Some (mkUpsertResult name INSERT M_new_extension ne [] None)
  | existing :: _ =>
      existing_version <- e_version existing ;;
      comparison <- compare_versions new_version existing_version ;;
      match comparison with
      | NEWER => Some (mkUpsertResult name REPLACE
                         (M_version_upgrade existing_version new_version) ne [existing] None)
      | VSAME => Some (mkUpsertResult name FAIL (M_version_exists_immutable new_version) ne []
                         (Some (M_cannot_mutate new_version)))
      | OLDER => Some (mkUpsertResult name FAIL
                         (M_cannot_downgrade_reason existing_version new_version) ne []
                         (Some (M_cannot_downgrade existing_version new_version)))
      end
  end.

(** The [for existing in existing_entries] loop of
    [determine_upsert_action_v2]: [inl r] is an early [return r], [inr acc]
    is the final [entries_to_replace]. *)
Fixpoint v2_loop (name new_version new_constraint : string) (ne : Entry)
  (existing_entries : list Entry) (entries_to_replace : list Entry)
  : option (UpsertResult + list Entry) :=
  match existing_entries with
  | [] => Some (inr entries_to_replace)
  | existing :: rest =>
      let existing_constraint := e_kamiwaza_version existing in
      existing_version <- e_version existing ;;
      match existing_constraint with
      | Some ec =>
        if negb (truthy existing_constraint) then
          Some (inl (mkUpsertResult name FAIL M_existing_missing_kamiwaza_version ne []
                       (Some (M_existing_malformed name))))
        else
        relationship <- compare_constraints new_constraint ec ;;
        match relationship with
        | DISJOINT => v2_loop name new_version new_constraint ne rest entries_to_replace
        | SAME =>
            version_cmp <- compare_versions new_version existing_version ;;
            match version_cmp with
            | NEWER => v2_loop name new_version new_constraint ne rest
                         (entries_to_replace ++ [existing])
            | VSAME => Some (inl (mkUpsertResult name FAIL
                         (M_version_with_constraint_exists new_version new_constraint) ne []
                         (Some (M_cannot_mutate new_version))))
            | OLDER => Some (inl (mkUpsertResult name FAIL
                         (M_cannot_downgrade_reason existing_version new_version) ne []
                         (Some (M_cannot_downgrade existing_version new_version))))
            end
        | SUPERSET => v2_loop name new_version new_constraint ne rest
                        (entries_to_replace ++ [existing])
        | SUBSET => Some (inl (mkUpsertResult name FAIL
                        (M_would_narrow ec new_constraint) ne []
                        (Some (M_cannot_narrow ec new_constraint))))
        | PARTIAL => Some (inl (mkUpsertResult name FAIL
                        (M_partial_overlap_reason ec new_constraint) ne []
                        (Some (M_partial_overlap ec new_constraint))))
        end
      | None =>
          Some (inl (mkUpsertResult name FAIL M_existing_missing_kamiwaza_version ne []
                       (Some (M_existing_malformed name))))
      end
  end.

Definition determine_upsert_action_v2 (ne : Entry) (existing_entries : list Entry)
  : option UpsertResult :=
  name <- e_name ne ;;
  new_version <- e_version ne ;;
  let new_constraint := e_kamiwaza_version ne in
  match new_constraint with
  | Some nc =>
    if negb (truthy new_constraint) then
      Some (mkUpsertResult name FAIL M_missing_kamiwaza_version ne []
              (Some M_v2_requires_kamiwaza_version))
    else
    match existing_entries with
    | [] => Some (mkUpsertResult name INSERT M_new_extension ne [] None)
    | _ :: _ =>
      res <- v2_loop name new_version nc ne existing_entries [] ;;
      match res with
      | inl r => Some r
      | inr entries_to_replace =>
          match entries_to_replace with
          | _ :: _ => Some (mkUpsertResult name REPLACE
                             (M_replacing (List.length entries_to_replace)) ne
                             entries_to_replace None)
          | [] => Some (mkUpsertResult name INSERT (M_disjoint_kamiwaza_version nc) ne [] None)
          end
      end
    end
  | None =>
      Some (mkUpsertResult name FAIL M_missing_kamiwaza_version ne []
              (Some M_v2_requires_kamiwaza_version))
  end.

Definition determine_upsert_action_forced (ne : Entry) (existing_entries : list Entry)
  : option UpsertResult :=
  name <- e_name ne ;;
  match existing_entries with
  | [] => Some (mkUpsertResult name INSERT M_new_extension_forced ne [] None)
  | _ :: _ => Some (mkUpsertResult name REPLACE
                      (M_forced_replace (List.length existing_entries)) ne existing_entries None)
  end.

(** [entry.get("name", "")]. *)
Definition get_name (e : Entry) : string :=
  match e_name e with Some n => n | None => "" end.

Definition str_mem (s : string) (l : list string) : bool := existsb (String.eqb s) l.

Definition is_v1_format (garden_version : string) : bool :=
  str_mem garden_version ["v1"; "default"].

(** [_determine_upsert_action]; the force set is a list of names. *)
Definition determine_upsert_action (local_entry : Entry) (existing : list Entry)
  (garden_version : string) (force_entries : list string) : option UpsertResult :=
  let name := get_name local_entry in
  if str_mem name force_entries then determine_upsert_action_forced local_entry existing
  else if is_v1_format garden_version then determine_upsert_action_v1 local_entry existing
  else determine_upsert_action_v2 local_entry existing.

(* ------------------------------------------------------------------ *)
(** ** Whole-batch merge ([merge_entries]) *)

Record MergeResult := mkMergeResult {
  success : bool;
  merged_entries : list Entry;
  actions : list UpsertResult;
  errors : list Msg
}.

(** [remote_by_name.get(name, [])]: the dictionary built by the grouping
    loop maps each name to the remote entries carrying it, in catalog
    order. *)
Definition remote_by_name (remote_entries : list Entry) (n : string) : list Entry :=
  filter (fun e => String.eqb (get_name e) n) remote_entries.

(** The hashable key [(name, version, kamiwaza_version)], read with
    [dict.get]: a missing field is [None]. *)
Definition Key : Type := option string * option string * option string.

Definition entry_key (e : Entry) : Key := (e_name e, e_version e, e_kamiwaza_version e).

Definition opt_str_eqb (a b : option string) : bool :=
  match a, b with
  | Some x, Some y => String.eqb x y
  | None, None => true
  | _, _ => false
  end.

Definition key_eqb (k1 k2 : Key) : bool :=
  let '(a1, b1, c1) := k1 in let '(a2, b2, c2) := k2 in
  opt_str_eqb a1 a2 && opt_str_eqb b1 b2 && opt_str_eqb c1 c2.

(** Set membership in [entries_to_remove]. *)
Definition key_mem (k : Key) (s : list Key) : bool := existsb (key_eqb k) s.

Definition is_fail (r : UpsertResult) : bool :=
  match action r with FAIL => true | _ => false end.

(** [result.error or result.reason]. *)
Definition error_or_reason (r : UpsertResult) : Msg :=
  match error r with Some m => m | None => reason r end.

(** The [for local_entry in local_entries] loop, with the accumulators
    [actions], [errors] and [entries_to_remove]. *)
Fixpoint process_local (local_entries remote_entries : list Entry) (garden_version : string)
  (force_entries : list string) (actions : list UpsertResult) (errors : list Msg)
  (entries_to_remove : list Key) : option (list UpsertResult * list Msg * list Key) :=
  match local_entries with
  | [] => Some (actions, errors, entries_to_remove)
  | local_entry :: rest =>
      let existing := remote_by_name remote_entries (get_name local_entry) in
      result <- determine_upsert_action local_entry existing garden_version force_entries ;;
      let actions' := actions ++ [result] in
      match action result with
      | FAIL => process_local rest remote_entries garden_version force_entries actions'
                  (errors ++ [error_or_reason result]) entries_to_remove
      | REPLACE => process_local rest remote_entries garden_version force_entries actions'
                  errors (entries_to_remove ++ map entry_key (replaced_entries result))
      | INSERT => process_local rest remote_entries garden_version force_entries actions'
                  errors entries_to_remove
      end
  end.

Definition is_insert_or_replace (r : UpsertResult) : bool :=
  match action r with INSERT | REPLACE => true | FAIL => false end.

Definition merge_entries (local_entries remote_entries : list Entry) (garden_version : string)
  (force_entries : list string) : option MergeResult :=
  acc <- process_local local_entries remote_entries garden_version force_entries [] [] [] ;;
  let '(actions, errors, entries_to_remove) := acc in
  match errors with
  | _ :: _ => Some (mkMergeResult false [] actions errors)
  | [] =>
      let kept := filter (fun e => negb (key_mem (entry_key e) entries_to_remove))
                    remote_entries in
      let added := map new_entry (filter is_insert_or_replace actions) in
      Some (mkMergeResult true (kept ++ added) actions [])
  end.

(* ------------------------------------------------------------------ *)
(** ** Remote store and local directories ([s3_operations.py]) *)

(** File contents: a registry JSON array (decoded) or other bytes. *)
Inductive Content := Catalog (entries : list Entry) | Bytes (s : string).

(** The remote object store: object key -> content. *)
Definition Store : Type := string -> option Content.
(** A local directory tree: relative path -> content. *)
Definition Dir : Type := string -> option Content.

Definition empty_dir : Dir := fun _ => None.

(** [shutil.copytree(src, dst, dirs_exist_ok=True)]: [src] written over [dst]. *)
Definition copytree (src dst : Dir) : Dir :=
  fun r => match src r with Some c => Some c | None => dst r end.

Definition garden_prefix (garden_dir : string) : string := "garden/" ++ garden_dir ++ "/".

(** [lock_s3_path(bucket, garden_dir)] (its key), [garden_dir] non-empty. *)
Definition lock_key (lock_name garden_dir : string) : string :=
  "garden/" ++ garden_dir ++ "/" ++ lock_name.

(** [aws s3 sync <remote prefix> <dir>]: every remote object under the
    prefix is copied into the directory. *)
Definition sync_down (st : Store) (prefix : string) (dst : Dir) : Dir :=
  fun r => match st (String.append prefix r) with Some c => Some c | None => dst r end.

(** [aws s3 sync <dir> <remote prefix> [--delete]]: every file of the
    directory is copied under the prefix; with [--delete], objects under the
    prefix that have no file in the directory are deleted. *)
Definition sync_up (src : Dir) (prefix : string) (delete : bool) (st : Store) : Store :=
  fun k => match strip_prefix prefix k with
           | Some r => match src r with
                       | Some c => Some c
                       | None => if delete then None else st k
                       end
           | None => st k
           end.

Definition put_object (k : string) (c : Content) (st : Store) : Store :=
  fun k' => if String.eqb k' k then Some c else st k'.

Definition rm_object (k : string) (st : Store) : Store :=
  fun k' => if String.eqb k' k then None else st k'.

(** [needle in s] for strings. *)
Fixpoint str_contains (needle s : string) : bool :=
  String.prefix needle s ||
  match s with EmptyString => false | String _ s' => str_contains needle s' end.

(** [check_lock_exists]: [aws s3 ls <lock path>] succeeds when the lock
    object exists (the listing is modelled by a lookup of the lock key) and
    prints its name, so [".lock" in stdout] holds when the lock name contains
    [.lock]. *)
Definition check_lock_exists (lock_name garden_dir : string) (st : Store) : bool :=
  match st (lock_key lock_name garden_dir) with
  | Some _ => str_contains ".lock" lock_name
  | None => false
  end.

Fixpoint list_eqb {A} (eqb : A -> A -> bool) (l1 l2 : list A) : bool :=
  match l1, l2 with
  | [], [] => true
  | a :: l1', b :: l2' => eqb a b && list_eqb eqb l1' l2'
  | _, _ => false
  end.

Definition entry_eqb (a b : Entry) : bool :=
  opt_str_eqb (e_name a) (e_name b) && opt_str_eqb (e_version a) (e_version b)
  && opt_str_eqb (e_kamiwaza_version a) (e_kamiwaza_version b)
  && list_eqb (fun p q => String.eqb (fst p) (fst q) && String.eqb (snd p) (snd q))
       (e_payload a) (e_payload b).

(** [filecmp.cmp(..., shallow=False)]. *)
Definition content_eqb (a b : Content) : bool :=
  match a, b with
  | Catalog l1, Catalog l2 => list_eqb entry_eqb l1 l2
  | Bytes s1, Bytes s2 => String.eqb s1 s2
  | _, _ => false
  end.

(** The comparison loop of [verify_upload] over [apps.json] and [tools.json]
    of the uploaded directory and of the re-downloaded copy. *)
Definition verify_files (local remote : Dir) : bool :=
  forallb (fun filename =>
    match local filename, remote filename with
    | Some a, Some b => content_eqb a b
    | None, None => true
    | _, _ => false
    end) ["apps.json"; "tools.json"].

(* ------------------------------------------------------------------ *)
(** ** [merge_registries] and [validate_local_registry] *)

(** [load_registry_json]: a missing file is an empty catalog, so is a JSON
    document that is not an array. *)
Definition load_registry_json (c : option Content) : list Entry :=
  match c with Some (Catalog l) => l | _ => [] end.

Definition get_garden_dir (repo_version : string) : string :=
  if String.eqb repo_version "v1" then "default" else repo_version.

(** [merge_registries(local_path, remote_path, output_path, ...)], with
    [local_path] the directory [local_registry/garden] and a fresh
    [output_path]; [None] when a merge raises.  Returns the success flag,
    both merge results and the contents of [output_path]. *)
Definition merge_registries (local_path remote_path : Dir) (garden_version : string)
  (force_entries : list string) : option (bool * MergeResult * MergeResult * Dir) :=
  let garden_dir := get_garden_dir garden_version in
  let local_apps := load_registry_json (local_path (garden_dir ++ "/apps.json")%string) in
  let remote_apps := load_registry_json (remote_path "apps.json") in
  apps_result <- merge_entries local_apps remote_apps garden_version force_entries ;;
  let local_tools := load_registry_json (local_path (garden_dir ++ "/tools.json")%string) in
  let remote_tools := load_registry_json (remote_path "tools.json") in
  tools_result <- merge_entries local_tools remote_tools garden_version force_entries ;;
  let ok := success apps_result && success tools_result in
  let images_dir := if String.eqb garden_version "v2" then "images" else "app-garden-images" in
  let output : Dir :=
    if ok then
      fun r =>
        if String.eqb r "apps.json" then Some (Catalog (merged_entries apps_result))
        else if String.eqb r "tools.json" then Some (Catalog (merged_entries tools_result))
        else match strip_prefix (images_dir ++ "/")%string r with
             | Some _ => copytree remote_path
                           (fun r' => local_path (garden_dir ++ "/" ++ r')%string) r
             | None => None
             end
    else empty_dir in
  Some (ok, apps_result, tools_result, output).

Definition validate_entry (entry : Entry) (garden_version : string) : bool :=
  match e_name entry, e_version entry with
  | Some _, Some v =>
      validate_version v &&
      (if String.eqb garden_version "v2" then
         match e_kamiwaza_version entry with
         | Some kv => negb (String.eqb kv "") && validate_constraint kv
         | None => false
         end
       else true)
  | _, _ => false
  end.

(** [validate_local_registry(local_registry/garden/<garden_dir>, ...)]: one
    of the two catalogs must exist and every entry must validate. *)
Definition validate_local_registry (local_garden : Dir) (garden_dir garden_version : string)
  : bool :=
  let apps := local_garden (garden_dir ++ "/apps.json")%string in
  let tools := local_garden (garden_dir ++ "/tools.json")%string in
  match apps, tools with
  | None, None => false
  | _, _ =>
      forallb (fun e => validate_entry e garden_version)
        (load_registry_json apps ++ load_registry_json tools)
  end.

(* ------------------------------------------------------------------ *)
(** ** The publish workflow ([registry-upsert.py], [main]) *)

(** Python exceptions that matter to [main]: [except Exception] catches the
    first two, not [SystemExit]. *)
Inductive Exc := RuntimeError | OtherError | SystemExit (code : nat).

Definition is_exception (e : Exc) : bool :=
  match e with SystemExit _ => false | _ => true end.

Inductive RemoteOp := OpLockPut | OpUpload | OpExternal | OpRestore | OpLockRm.

(** Printed lines that the properties look at. *)
Inductive Line :=
| LBucketError | LValidationFailed | LLockHeld
| LMergeSummary (apps_result tools_result : MergeResult)
| LDryRunWouldFail | LDryRunWouldSucceed | LDryRunWouldProceed
| LNoLockToRelease | LLockReleased | LReleaseFailed
| LUpsertComplete | LBackupRestored | LRestoreFailed.

(** The observable history: remote writes (with the store after the write)
    and printed lines, oldest first. *)
Inductive Event := RemoteWrite (op : RemoteOp) (after : Store) | Printed (l : Line).

Inductive DownloadOutcome :=
| DlOk        (* the sync succeeds *)
| DlEmpty     (* the sync fails with [NoSuchKey] or no message: empty remote *)
| DlError.    (* the sync fails otherwise: [RuntimeError] *)

(** The environment: configuration and the outcome of each remote command.
    A failing sync ([Some f]) first applies its partial effect [f]. *)
Record Env := mkEnv {
  env_bucket_ok : bool;                    (* [get_bucket_for_stage] succeeds *)
  env_lock_name : string;                  (* [KAMIWAZA_REGISTRY_LOCK_NAME] *)
  env_lock_content : string;               (* the JSON lock record *)
  env_lock_info_truthy : bool;             (* [get_lock_info] of an existing lock is a
                                              non-empty dict (read and decoded) *)
  env_lock_put_ok : bool;
  env_download : DownloadOutcome;
  env_upload_fault : option (Store -> Store);
  env_interference : Store -> Store;       (* writes by other parties before verification *)
  env_verify_sync_ok : bool;
  env_restore_fault : option (Store -> Store);
  env_rm_ok : bool
}.

Record Args := mkArgs {
  a_repo_version : string;
  a_local_registry : Dir;                  (* the tree [local_registry/garden] *)
  a_dry_run : bool;
  a_force_name : option string
}.

(** The state of the run: the remote store, the persistent download
    directory [build/registry-backups/remote/<garden_dir>], the timestamped
    backup directory as found, [main]'s locals [backup_path] (with the
    backup's contents), [lock_acquired] and [had_error], and the history. *)
Record World := mkWorld {
  w_remote : Store;
  w_working : Dir;
  w_backup_dir : Dir;
  w_backup : option Dir;
  w_lock_acquired : bool;
  w_had_error : bool;
  w_log : list Event
}.

Definition M (A : Type) : Type := World -> World * (A + Exc).

Definition ret {A} (a : A) : M A := fun w => (w, inl a).
Definition raise {A} (e : Exc) : M A := fun w => (w, inr e).
Definition bind {A B} (m : M A) (k : A -> M B) : M B :=
  fun w => match m w with
           | (w', inl a) => k a w'
           | (w', inr e) => (w', inr e)
           end.

Notation "'let*' x ':=' m 'in' k" := (bind m (fun x => k))
  (at level 200, x name, m at level 100, k at level 200).

Definition gets {A} (f : World -> A) : M A := fun w => (w, inl (f w)).
Definition modify (f : World -> World) : M unit := fun w => (f w, inl tt).

Definition emit (ev : Event) : M unit :=
  modify (fun w => mkWorld (w_remote w) (w_working w) (w_backup_dir w) (w_backup w)
                     (w_lock_acquired w) (w_had_error w) (w_log w ++ [ev])).

Definition print (l : Line) : M unit := emit (Printed l).

Definition write_remote (op : RemoteOp) (st : Store) : M unit :=
  let* _ := modify (fun w => mkWorld st (w_working w) (w_backup_dir w) (w_backup w)
                               (w_lock_acquired w) (w_had_error w) (w_log w)) in
  emit (RemoteWrite op st).

Definition set_lock_acquired (b : bool) : M unit :=
  modify (fun w => mkWorld (w_remote w) (w_working w) (w_backup_dir w) (w_backup w)
                     b (w_had_error w) (w_log w)).

Definition set_had_error : M unit :=
  modify (fun w => mkWorld (w_remote w) (w_working w) (w_backup_dir w) (w_backup w)
                     (w_lock_acquired w) true (w_log w)).

Definition set_download (working : Dir) (backup : option Dir) : M unit :=
  modify (fun w => mkWorld (w_remote w) working (w_backup_dir w) backup
                     (w_lock_acquired w) (w_had_error w) (w_log w)).

(** [try: body except Exception: handler]. *)
Definition try_except (body handler : M unit) : M unit :=
  fun w => match body w with
           | (w', inr e) => if is_exception e then handler w' else (w', inr e)
           | r => r
           end.

(** [try: body finally: cleanup]: an exception of the cleanup replaces the
    outcome of the body. *)
Definition try_finally (body cleanup : M unit) : M unit :=
  fun w => match body w with
           | (w1, r) => match cleanup w1 with
                        | (w2, inr e) => (w2, inr e)
                        | (w2, inl _) => (w2, r)
                        end
           end.

Definition acquire_lock (env : Env) (garden_dir : string) : M unit :=
  let* st := gets w_remote in
  if check_lock_exists (env_lock_name env) garden_dir st && env_lock_info_truthy env
  then raise RuntimeError
  else if env_lock_put_ok env then
    write_remote OpLockPut
      (put_object (lock_key (env_lock_name env) garden_dir) (Bytes (env_lock_content env)) st)
  else raise RuntimeError.

Definition release_lock (env : Env) (garden_dir : string) : M bool :=
  let* st := gets w_remote in
  if negb (check_lock_exists (env_lock_name env) garden_dir st) then
    let* _ := print LNoLockToRelease in ret false
  else if env_rm_ok env then
    let* _ := write_remote OpLockRm (rm_object (lock_key (env_lock_name env) garden_dir) st) in
    let* _ := print LLockReleased in ret true
  else let* _ := print LReleaseFailed in ret false.

(** The tree left by [aws s3 sync <remote prefix> <working dir>] in a
    directory holding [working0]. *)
Definition sync_result (env : Env) (garden_dir : string) (st : Store) (working0 : Dir) : Dir :=
  match env_download env with
  | DlOk => sync_down st (garden_prefix garden_dir) working0
  | _ => working0
  end.

(** [download_registry] into a directory holding [working0]; with
    [create_backup], the backup is the downloaded tree copied over the
    timestamped directory's contents [backup0]. *)
Definition download_registry (env : Env) (garden_dir : string) (working0 : Dir)
  (create_backup : bool) (backup0 : Dir) : M (Dir * option Dir) :=
  let* st := gets w_remote in
  let working := sync_result env garden_dir st working0 in
  match env_download env with
  | DlError => raise RuntimeError
  | _ => ret (working, if create_backup then Some (copytree working backup0) else None)
  end.

(** [upload_registry(..., delete=True)] with the outcome of its sync. *)
Definition upload_registry (op : RemoteOp) (fault : option (Store -> Store))
  (garden_dir : string) (src : Dir) : M unit :=
  let* st := gets w_remote in
  match fault with
  | Some f => let* _ := write_remote op (f st) in raise RuntimeError
  | None => write_remote op (sync_up src (garden_prefix garden_dir) true st)
  end.

Definition verify_upload (env : Env) (garden_dir : string) (local : Dir) : M bool :=
  let* st := gets w_remote in
  if env_verify_sync_ok env then
    ret (verify_files local (sync_down st (garden_prefix garden_dir) empty_dir))
  else raise RuntimeError.

Definition lift_option {A} (o : option A) : M A :=
  match o with Some a => ret a | None => raise OtherError end.

Definition force_entries_of (force_name : option string) : list string :=
  match force_name with Some n => if String.eqb n "" then [] else [n] | None => [] end.

(** The dry-run branch (steps inside [if dry_run:]). *)
Definition dry_run_branch (env : Env) (args : Args) (garden_dir : string) : M unit :=
  let repo_version := a_repo_version args in
  let* remote_path :=
    (fun w => match download_registry env garden_dir empty_dir false empty_dir w with
              | (w', inl (d, _)) => (w', inl d)
              | (w', inr e) => if is_exception e then (w', inl empty_dir) else (w', inr e)
              end) in
  let* m := lift_option (merge_registries (a_local_registry args) remote_path repo_version
                           (force_entries_of (a_force_name args))) in
  let '(ok, apps_result, tools_result, _) := m in
  let* _ := print (LMergeSummary apps_result tools_result) in
  if negb ok then
    let* _ := print LDryRunWouldFail in raise (SystemExit 1)
  else
    let* _ := print LDryRunWouldSucceed in
    let* _ := print LDryRunWouldProceed in
    raise (SystemExit 0).

(** Steps 2 to 7 of a live run. *)
Definition live_branch (env : Env) (args : Args) (garden_dir : string) : M unit :=
  let repo_version := a_repo_version args in
  (* Step 2: acquire lock; its RuntimeError is handled on the spot *)
  let* _ := (fun w => match acquire_lock env garden_dir w with
                      | (w', inr RuntimeError) =>
                          (let* _ := print LLockHeld in raise (SystemExit 1)) w'
                      | r => r
                      end) in
  let* _ := set_lock_acquired true in
  (* Step 3: backup and download *)
  let* working0 := gets w_working in
  let* backup0 := gets w_backup_dir in
  let* dl := download_registry env garden_dir working0 true backup0 in
  let '(remote_path, backup_path) := dl in
  let* _ := set_download remote_path backup_path in
  (* Step 4: merge *)
  let* m := lift_option (merge_registries (a_local_registry args) remote_path repo_version
                           (force_entries_of (a_force_name args))) in
  let '(ok, apps_result, tools_result, output_path) := m in
  let* _ := print (LMergeSummary apps_result tools_result) in
  if negb ok then raise RuntimeError else
  (* Step 5: push *)
  let* _ := upload_registry OpUpload (env_upload_fault env) garden_dir output_path in
  let* st := gets w_remote in
  let* _ := write_remote OpExternal (env_interference env st) in
  (* Step 6: verify *)
  let* verified := verify_upload env garden_dir output_path in
  if negb verified then raise RuntimeError else
  (* Step 7: release *)
  let* _ := release_lock env garden_dir in
  let* _ := set_lock_acquired false in
  print LUpsertComplete.

(** The [except Exception] handler: restore the backup if there is one. *)
Definition restore_handler (env : Env) (garden_dir : string) : M unit :=
  let* _ := set_had_error in
  let* backup := gets w_backup in
  match backup with
  | Some b =>
      fun w => match upload_registry OpRestore (env_restore_fault env) garden_dir b w with
               | (w', inl _) => print LBackupRestored w'
               | (w', inr e) => if is_exception e then print LRestoreFailed w' else (w', inr e)
               end
  | None => ret tt
  end.

(** The [finally] clause. *)
Definition cleanup (env : Env) (garden_dir : string) : M unit :=
  let* acquired := gets w_lock_acquired in
  let* _ := if acquired then let* _ := release_lock env garden_dir in ret tt else ret tt in
  let* had_error := gets w_had_error in
  if had_error then raise (SystemExit 1) else ret tt.

Definition main (env : Env) (args : Args) : M unit :=
  let repo_version := a_repo_version args in
  let garden_dir := get_garden_dir repo_version in
  if negb (env_bucket_ok env) then let* _ := print LBucketError in raise (SystemExit 1) else
  let* _ := modify (fun w => mkWorld (w_remote w) (w_working w) (w_backup_dir w) None
                               false false (w_log w)) in
  try_finally
    (try_except
       (if negb (validate_local_registry (a_local_registry args) garden_dir repo_version) then
          let* _ := print LValidationFailed in raise (SystemExit 1)
        else if a_dry_run args then dry_run_branch env args garden_dir
        else live_branch env args garden_dir)
       (restore_handler env garden_dir))
    (cleanup env garden_dir).

(** The process exit status. *)
Definition exit_code (r : unit + Exc) : nat :=
  match r with inl _ => 0 | inr (SystemExit n) => n | inr _ => 1 end.

Definition run (env : Env) (args : Args) (w0 : World) : World * nat :=
  let '(w, r) := main env args w0 in (w, exit_code r).

(* ================================================================== *)
(** * Properties *)

(** ** The constraint comparison *)

Lemma compare_constraints_sampled c1 c2 :
  compare_constraints c1 c2 =
  (s1 <- parse_constraint c1 ;; s2 <- parse_constraint c2 ;;
   Some (sample_relationship spec_contains get_test_versions s1 s2)).
Proof.
  unfold compare_constraints, constraints_equal, constraints_overlap, is_superset,
    sample_relationship.
  destruct (parse_constraint c1) as [s1|]; [|reflexivity].
  destruct (parse_constraint c2) as [s2|]; [|reflexivity].
  cbv beta iota zeta.
  generalize (sample_superset spec_contains get_test_versions s2 s1) as b4.
  generalize (sample_superset spec_contains get_test_versions s1 s2) as b3.
  generalize (sample_overlap spec_contains get_test_versions s1 s2) as b2.
  generalize (sample_equal spec_contains get_test_versions s1 s2) as b1.
  intros [] [] [] []; reflexivity.
Qed.

(** C8. For all constraint strings [c1], [c2] (over the generated lattice of
    test versions): [compare_constraints c1 c2] is [SUPERSET] iff
    [compare_constraints c2 c1] is [SUBSET], and [SAME] and [DISJOINT] are
    symmetric.  (A string that does not parse makes both calls raise.) *)
Theorem compare_constraints_symmetric c1 c2 :
  (compare_constraints c1 c2 = Some SUPERSET <-> compare_constraints c2 c1 = Some SUBSET) /\
  (compare_constraints c1 c2 = Some SAME <-> compare_constraints c2 c1 = Some SAME) /\
  (compare_constraints c1 c2 = Some DISJOINT <-> compare_constraints c2 c1 = Some DISJOINT).
Proof.
  rewrite !compare_constraints_sampled.
  destruct (parse_constraint c1) as [s1|], (parse_constraint c2) as [s2|];
    cbv beta iota zeta.
  1: { pose proof (sample_relationship_sym _ _ spec_contains get_test_versions s1 s2)
         as Hs.
       revert Hs.
       generalize (sample_relationship spec_contains get_test_versions s2 s1) as r21.
       generalize (sample_relationship spec_contains get_test_versions s1 s2) as r12.
       intros r12 r21 (H1 & H2 & H3).
       repeat split; intro H; injection H as H; f_equal; firstorder. }
  all: repeat split; intro H; discriminate H.
Qed.

(** ** The forced rule set *)

(** C6. For a candidate whose name is in the force set, the decision is the
    forced one whatever the format; it is INSERT when there is no existing
    entry and otherwise REPLACE of all existing entries; it is never FAIL, with
    no condition on versions or constraints of the candidate or the
    existing entries. *)
Theorem forced_decision_never_fails (ne : Entry) (existing : list Entry)
  (garden_version : string) (force_entries : list string) (n : string) :
  e_name ne = Some n -> str_mem n force_entries = true ->
  determine_upsert_action ne existing garden_version force_entries =
    determine_upsert_action_forced ne existing /\
  exists r, determine_upsert_action ne existing garden_version force_entries = Some r /\
    action r <> FAIL /\
    (existing = [] -> action r = INSERT /\ replaced_entries r = []) /\
    (existing <> [] -> action r = REPLACE /\ replaced_entries r = existing).
Proof.
  intros Hn Hf.
  assert (Hd : determine_upsert_action ne existing garden_version force_entries =
               determine_upsert_action_forced ne existing).
  { unfold determine_upsert_action, get_name. rewrite Hn, Hf. reflexivity. }
  split; [exact Hd|]. rewrite Hd.
  unfold determine_upsert_action_forced. rewrite Hn.
  destruct existing as [|x xs].
  - eexists; split; [reflexivity|]. simpl. split; [discriminate|].
    split; [auto|]. intro H; congruence.
  - eexists; split; [reflexivity|]. simpl. split; [discriminate|].
    split; [intro H; discriminate H|]. auto.
Qed.

Definition e_app_v1_1 : Entry := mkEntry (Some "app") (Some "1.1.0") None [].
Definition e_app_v1_0 : Entry := mkEntry (Some "app") (Some "1.0.0") None [].

Lemma forced_decision_never_fails_witness :
  str_mem "app" ["app"] = true /\
  exists r, determine_upsert_action e_app_v1_0 [e_app_v1_1] "v1" ["app"] = Some r /\
    action r = REPLACE /\ replaced_entries r = [e_app_v1_1].
Proof.
  split; [reflexivity|].
  destruct (forced_decision_never_fails e_app_v1_0 [e_app_v1_1] "v1" ["app"] "app"
              eq_refl eq_refl) as (_ & r & Hr & _ & _ & Hne).
  exists r. split; [exact Hr|]. apply Hne. discriminate.
Defined.

(** ** The v1 rule set *)

(** C7. Under the v1 rules, for a candidate with a name and a version: no
    existing entry gives INSERT; otherwise the candidate's version is compared
    with the version of the existing entry ([existing_entries[0]]): NEWER
    gives REPLACE of that entry, SAME gives FAIL (immutable version), OLDER
    gives FAIL (cannot downgrade). *)
Theorem v1_decision_cases (ne : Entry) (n nv : string) :
  e_name ne = Some n -> e_version ne = Some nv ->
  (exists r, determine_upsert_action_v1 ne [] = Some r /\ action r = INSERT /\
     replaced_entries r = []) /\
  (forall existing rest ev, e_version existing = Some ev ->
     (compare_versions nv ev = Some NEWER ->
        exists r, determine_upsert_action_v1 ne (existing :: rest) = Some r /\
          action r = REPLACE /\ replaced_entries r = [existing]) /\
     (compare_versions nv ev = Some VSAME ->
        exists r, determine_upsert_action_v1 ne (existing :: rest) = Some r /\
          action r = FAIL /\ error r = Some (M_cannot_mutate nv)) /\
     (compare_versions nv ev = Some OLDER ->
        exists r, determine_upsert_action_v1 ne (existing :: rest) = Some r /\
          action r = FAIL /\ error r = Some (M_cannot_downgrade ev nv))).
Proof.
  intros Hn Hv. unfold determine_upsert_action_v1. rewrite Hn, Hv.
  split; [eexists; repeat split|].
  intros existing rest ev Hev. rewrite Hev.
  repeat split; intro Hc; rewrite Hc; eexists; repeat split.
Qed.

Lemma v1_decision_cases_witness :
  compare_versions "1.1.0" "1.0.0" = Some NEWER /\
  exists r, determine_upsert_action_v1 e_app_v1_1 [e_app_v1_0] = Some r /\
    action r = REPLACE /\ replaced_entries r = [e_app_v1_0].
Proof.
  split; [vm_compute; reflexivity|].
  destruct (v1_decision_cases e_app_v1_1 "app" "1.1.0" eq_refl eq_refl) as [_ H].
  destruct (H e_app_v1_0 [] "1.0.0" eq_refl) as [Hn _].
  apply Hn. vm_compute. reflexivity.
Defined.

(** ** The v2 rule set, against the rules as the specification words them *)

(** What one existing entry contributes under the v2 rules. *)
Inductive Verdict := Skip | Mark | Reject.

(** The v2 rule for one existing entry, in the specification's words:
    missing constraint -> FAIL; DISJOINT -> continue; SAME -> NEWER marks,
    SAME or OLDER fails; SUPERSET marks; SUBSET and PARTIAL fail. *)
Definition spec_v2_verdict (new_version new_constraint : string) (existing : Entry)
  : option Verdict :=
  match e_kamiwaza_version existing with
  | None => Some Reject
  | Some ec =>
    if String.eqb ec "" then Some Reject else
    rel <- compare_constraints new_constraint ec ;;
    match rel with
    | DISJOINT => Some Skip
    | SAME =>
        ev <- e_version existing ;;
        cmp <- compare_versions new_version ev ;;
        match cmp with NEWER => Some Mark | VSAME | OLDER => Some Reject end
    | SUPERSET => Some Mark
    | SUBSET | PARTIAL => Some Reject
    end
  end.

(** Evaluate each existing entry in turn: [Some None] is FAIL, [Some (Some m)]
    the entries marked for replacement. *)
Fixpoint spec_v2_scan (new_version new_constraint : string) (existing : list Entry)
  : option (option (list Entry)) :=
  match existing with
  | [] => Some (Some [])
  | x :: xs =>
      v <- spec_v2_verdict new_version new_constraint x ;;
      match v with
      | Reject => Some None
      | Skip => spec_v2_scan new_version new_constraint xs
      | Mark =>
          r <- spec_v2_scan new_version new_constraint xs ;;
          Some (option_map (cons x) r)
      end
  end.

(** The v2 decision (action and replaced set) as the specification states
    it. *)
Definition spec_v2_action (new_version : string) (new_constraint : option string)
  (existing : list Entry) : option (UpsertAction * list Entry) :=
  match new_constraint with
  | None => Some (FAIL, [])
  | Some nc =>
    if String.eqb nc "" then Some (FAIL, []) else
    match existing with
    | [] => Some (INSERT, [])
    | _ :: _ =>
        s <- spec_v2_scan new_version nc existing ;;
        match s with
        | None => Some (FAIL, [])
        | Some [] => Some (INSERT, [])
        | Some marked => Some (REPLACE, marked)
        end
    end
  end.

Definition action_and_replaced (r : UpsertResult) : UpsertAction * list Entry :=
  (action r, replaced_entries r).

Lemma v2_loop_scan name nv nc ne existing acc :
  Forall (fun x => e_version x <> None) existing ->
  option_map (fun res => match res with
                         | inl r => (action r, replaced_entries r)
                         | inr marked => (match marked with [] => INSERT | _ => REPLACE end,
                                          marked)
                         end)
    (v2_loop name nv nc ne existing acc) =
  option_map (fun s => match s with
                       | None => (FAIL, [])
                       | Some m => (match acc ++ m with [] => INSERT | _ => REPLACE end,
                                    acc ++ m)
                       end)
    (spec_v2_scan nv nc existing).
Proof.
  revert acc. induction existing as [|x xs IH]; intros acc Hv; simpl.
  - rewrite app_nil_r. reflexivity.
  - inversion Hv as [|? ? Hx Hxs]; subst.
    destruct (e_version x) as [ev|] eqn:Hev; [|congruence].
    unfold spec_v2_verdict. rewrite Hev.
    destruct (e_kamiwaza_version x) as [ec|]; [|reflexivity].
    unfold truthy. destruct (String.eqb ec ""); simpl; [reflexivity|].
    destruct (compare_constraints nc ec) as [rel|]; [|reflexivity].
    destruct rel; simpl; try reflexivity.
    + apply IH; assumption.
    + destruct (compare_versions nv ev) as [[]|]; simpl; try reflexivity.
      rewrite IH by assumption.
      destruct (spec_v2_scan nv nc xs) as [[m|]|]; simpl; try reflexivity.
      rewrite <- app_assoc. reflexivity.
    + rewrite IH by assumption.
      destruct (spec_v2_scan nv nc xs) as [[m|]|]; simpl; try reflexivity.
      rewrite <- app_assoc. reflexivity.
Qed.

(** C3. For a candidate with a name and a version, and existing entries that
    all carry a version, the v2 decision agrees with the rule set of the
    specification: missing or empty candidate constraint -> FAIL; no
    existing entry -> INSERT; per existing entry: missing constraint -> FAIL,
    DISJOINT skipped, SAME -> version comparison (NEWER marks, SAME / OLDER
    fail), SUPERSET marks, SUBSET and PARTIAL fail; otherwise REPLACE of exactly
    the marked entries if any, else INSERT.  Action and replaced set agree,
    and so do raised exceptions (unparsable versions or constraints). *)
Theorem v2_decision_refines_rules (ne : Entry) (existing : list Entry) (n nv : string) :
  e_name ne = Some n -> e_version ne = Some nv ->
  Forall (fun x => e_version x <> None) existing ->
  option_map action_and_replaced (determine_upsert_action_v2 ne existing) =
  spec_v2_action nv (e_kamiwaza_version ne) existing.
Proof.
  intros Hn Hv Hex. unfold determine_upsert_action_v2, spec_v2_action. rewrite Hn, Hv.
  destruct (e_kamiwaza_version ne) as [nc|]; [|reflexivity].
  unfold truthy. destruct (String.eqb nc ""); simpl; [reflexivity|].
  destruct existing as [|x xs]; [reflexivity|].
  pose proof (v2_loop_scan n nv nc ne (x :: xs) [] Hex) as H. simpl app in H.
  destruct (v2_loop n nv nc ne (x :: xs) []) as [[r|m]|];
    destruct (spec_v2_scan nv nc (x :: xs)) as [[m'|]|]; simpl in H |- *;
    try discriminate H; try reflexivity.
  - injection H as H1 H2. unfold action_and_replaced. rewrite H1, H2.
    destruct m'; reflexivity.
  - injection H as H1 H2. unfold action_and_replaced. rewrite H1, H2. reflexivity.
  - injection H as H1 H2. subst m'. destruct m; reflexivity.
  - injection H as H1 H2. destruct m; discriminate H1.
Qed.

Definition e_app_disj_new : Entry := mkEntry (Some "app") (Some "1.0.0") (Some ">=0.9.0,<1.0.0") [].
Definition e_app_disj_old : Entry := mkEntry (Some "app") (Some "1.0.0") (Some ">=0.8.0,<0.9.0") [].
Definition e_app_partial : Entry := mkEntry (Some "app") (Some "1.0.0") (Some ">=0.8.0,<0.9.5") [].

Lemma v2_decision_refines_rules_witness :
  option_map action_and_replaced
    (determine_upsert_action_v2 e_app_disj_new [e_app_disj_old; e_app_partial]) =
  spec_v2_action "1.0.0" (Some ">=0.9.0,<1.0.0") [e_app_disj_old; e_app_partial].
Proof.
  apply (v2_decision_refines_rules e_app_disj_new _ "app" "1.0.0" eq_refl eq_refl).
  repeat constructor; discriminate.
Defined.

(** ** The merge loop *)

Section MergeLoop.
Variables (remote_entries : list Entry) (garden_version : string)
  (force_entries : list string).

(** The decision [merge_entries] takes for one candidate. *)
Definition decision_of (c : Entry) : option UpsertResult :=
  determine_upsert_action c (remote_by_name remote_entries (get_name c))
    garden_version force_entries.

Definition replaced_keys (r : UpsertResult) : list Key :=
  match action r with REPLACE => map entry_key (replaced_entries r) | _ => [] end.

Lemma process_local_result local acts errs rem out :
  process_local local remote_entries garden_version force_entries acts errs rem = Some out ->
  exists A, out = (acts ++ A, errs ++ map error_or_reason (filter is_fail A),
                   rem ++ flat_map replaced_keys A) /\
            Forall2 (fun c a => decision_of c = Some a) local A.
Proof.
  revert acts errs rem. induction local as [|c cs IH]; intros acts errs rem H; simpl in H.
  - injection H as <-. exists []. rewrite !app_nil_r. split; [reflexivity|constructor].
  - unfold decision_of at 1 in IH.
    destruct (determine_upsert_action c _ _ _) as [r|] eqn:Hr; [|discriminate H].
    destruct (action r) eqn:Ha; apply IH in H as (A & -> & HA);
      exists (r :: A); rewrite <- !app_assoc; simpl; unfold is_fail, replaced_keys;
      rewrite Ha; simpl; (split; [reflexivity|constructor; assumption]).
Qed.

Lemma process_local_defined local acts errs rem :
  (forall c, In c local -> decision_of c <> None) ->
  exists out,
    process_local local remote_entries garden_version force_entries acts errs rem = Some out.
Proof.
  revert acts errs rem. induction local as [|c cs IH]; intros acts errs rem H; simpl.
  - eexists; reflexivity.
  - specialize (H c (or_introl eq_refl)) as Hc. unfold decision_of in Hc.
    destruct (determine_upsert_action c _ _ _) as [r|]; [|congruence].
    destruct (action r); apply IH; intros c' Hc'; apply H; right; exact Hc'.
Qed.

Lemma merge_entries_result local res :
  merge_entries local remote_entries garden_version force_entries = Some res ->
  exists A, actions res = A /\
    Forall2 (fun c a => decision_of c = Some a) local A /\
    ((filter is_fail A <> [] /\ success res = false /\ merged_entries res = [] /\
      errors res = map error_or_reason (filter is_fail A)) \/
     (filter is_fail A = [] /\ success res = true /\ errors res = [] /\
      merged_entries res =
        filter (fun e => negb (key_mem (entry_key e) (flat_map replaced_keys A)))
          remote_entries ++ map new_entry (filter is_insert_or_replace A))).
Proof.
  unfold merge_entries.
  destruct (process_local local _ _ _ [] [] []) as [out|] eqn:Hp; [|discriminate].
  apply process_local_result in Hp as (A & -> & HA). simpl.
  destruct (map error_or_reason (filter is_fail A)) as [|m ms] eqn:He;
    intro H; injection H as <-; exists A; simpl; (split; [reflexivity|split; [exact HA|]]).
  - right. destruct (filter is_fail A); [|discriminate He]. repeat split.
  - left. repeat split; try (symmetry; exact He).
    destruct (filter is_fail A); discriminate.
Qed.
End MergeLoop.

Lemma Forall2_in_left {A B} (R : A -> B -> Prop) l1 l2 x :
  Forall2 R l1 l2 -> In x l1 -> exists y, In y l2 /\ R x y.
Proof.
  induction 1 as [|a b l1' l2' Hab _ IH]; simpl; [contradiction|].
  intros [->|Hx]; [exists b; auto|].
  destruct (IH Hx) as (y & Hy & Hxy). exists y; auto.
Qed.

Lemma Forall2_in_right {A B} (R : A -> B -> Prop) l1 l2 y :
  Forall2 R l1 l2 -> In y l2 -> exists x, In x l1 /\ R x y.
Proof.
  induction 1 as [|a b l1' l2' Hab _ IH]; simpl; [contradiction|].
  intros [->|Hy]; [exists a; auto|].
  destruct (IH Hy) as (x & Hx & Hxy). exists x; auto.
Qed.

Lemma filter_nonempty_exists {A} (f : A -> bool) (l : list A) :
  filter f l <> [] <-> exists x, In x l /\ f x = true.
Proof.
  split.
  - intro H. destruct (filter f l) as [|x xs] eqn:Hf; [congruence|].
    exists x. apply filter_In. rewrite Hf. left; reflexivity.
  - intros (x & Hx & Hfx) Hf. assert (Hin : In x (filter f l)) by (apply filter_In; auto).
    rewrite Hf in Hin. exact Hin.
Qed.

(** C2. If every candidate's decision is computed (no exception is raised)
    and the decision of some candidate is FAIL, [merge_entries] returns a
    result with [success = false], an empty merged list, one action per
    candidate (its decision), and an error list holding the error (or reason)
    of every failing action, in batch order. *)
Theorem merge_entries_all_or_nothing (local remote : list Entry) (garden_version : string)
  (force_entries : list string) (c0 : Entry) (r0 : UpsertResult) :
  (forall c, In c local -> decision_of remote garden_version force_entries c <> None) ->
  In c0 local -> decision_of remote garden_version force_entries c0 = Some r0 ->
  action r0 = FAIL ->
  exists res, merge_entries local remote garden_version force_entries = Some res /\
    success res = false /\ merged_entries res = [] /\
    Forall2 (fun c a => decision_of remote garden_version force_entries c = Some a)
      local (actions res) /\
    errors res = map error_or_reason (filter is_fail (actions res)).
Proof.
  intros Hall Hc0 Hr0 Hfail.
  destruct (process_local_defined remote garden_version force_entries local [] [] [] Hall)
    as [out Hout].
  assert (Hm : exists res, merge_entries local remote garden_version force_entries = Some res).
  { unfold merge_entries. rewrite Hout. destruct out as [[A E] R].
    destruct E; eexists; reflexivity. }
  destruct Hm as [res Hres]. exists res. split; [exact Hres|].
  destruct (merge_entries_result _ _ _ _ _ Hres) as (A & HA & HF & [Hl|Hr]).
  - destruct Hl as (_ & Hs & Hme & He). subst A. auto.
  - exfalso. destruct Hr as (Hnf & _).
    apply (filter_nonempty_exists is_fail A); [|exact Hnf].
    destruct (Forall2_in_left _ _ _ _ HF Hc0) as (r & Hr & Hdr).
    rewrite Hr0 in Hdr. injection Hdr as <-.
    exists r0. split; [exact Hr|]. unfold is_fail. rewrite Hfail. reflexivity.
Qed.

Definition e_app2_new : Entry := mkEntry (Some "app2") (Some "1.0.0") (Some ">=0.9.0") [].

(** Failing FAIL decision of [e_app_disj_new] against [e_app_partial]. *)
Definition r_partial_fail : UpsertResult :=
  mkUpsertResult "app" FAIL (M_partial_overlap_reason ">=0.8.0,<0.9.5" ">=0.9.0,<1.0.0")
    e_app_disj_new [] (Some (M_partial_overlap ">=0.8.0,<0.9.5" ">=0.9.0,<1.0.0")).

Lemma merge_entries_all_or_nothing_witness :
  decision_of [e_app_partial] "v2" [] e_app2_new <> None /\
  decision_of [e_app_partial] "v2" [] e_app_disj_new = Some r_partial_fail /\
  exists res,
    merge_entries [e_app2_new; e_app_disj_new] [e_app_partial] "v2" [] = Some res /\
    success res = false /\ merged_entries res = [] /\
    Forall2 (fun c a => decision_of [e_app_partial] "v2" [] c = Some a)
      [e_app2_new; e_app_disj_new] (actions res) /\
    errors res = map error_or_reason (filter is_fail (actions res)).
Proof.
  split; [vm_compute; discriminate|]. split; [vm_compute; reflexivity|].
  apply (merge_entries_all_or_nothing [e_app2_new; e_app_disj_new] [e_app_partial] "v2" []
           e_app_disj_new r_partial_fail).
  - intros c [<-|[<-|[]]]; vm_compute; discriminate.
  - right; left; reflexivity.
  - vm_compute; reflexivity.
  - reflexivity.
Defined.

(** ** Removal by key *)

Lemma opt_str_eqb_refl o : opt_str_eqb o o = true.
Proof. destruct o; simpl; [apply String.eqb_refl|reflexivity]. Qed.

Lemma key_eqb_refl k : key_eqb k k = true.
Proof. destruct k as [[a b] c]. simpl. rewrite !opt_str_eqb_refl. reflexivity. Qed.

Lemma key_mem_In k K : In k K -> key_mem k K = true.
Proof.
  intro H. unfold key_mem. apply existsb_exists. exists k. split; [exact H|apply key_eqb_refl].
Qed.

(** C10. On success, the merged list is the remote list filtered by the key
    triple [(name, version, kamiwaza_version)] (missing fields read as
    [None]) followed by the inserted and replacing candidates; hence when a
    REPLACE replaces an entry [r1], any remote entry [r2] with the same key
    triple, whatever its other fields, is dropped as well: [r1] or [r2] can
    only remain in the output as a candidate entry. *)
Theorem merge_entries_removes_by_key (local remote : list Entry) (garden_version : string)
  (force_entries : list string) (res : MergeResult) (r1 r2 : Entry) (a : UpsertResult) :
  merge_entries local remote garden_version force_entries = Some res -> success res = true ->
  entry_key r1 = entry_key r2 ->
  In a (actions res) -> action a = REPLACE -> In r1 (replaced_entries a) ->
  merged_entries res =
    filter (fun e => negb (key_mem (entry_key e)
                             (flat_map (replaced_keys) (actions res)))) remote
    ++ map new_entry (filter is_insert_or_replace (actions res)) /\
  (forall x, (x = r1 \/ x = r2) -> In x (merged_entries res) ->
     In x (map new_entry (filter is_insert_or_replace (actions res)))).
Proof.
  intros Hm Hs Hk Ha Hrep Hr1.
  destruct (merge_entries_result _ _ _ _ _ Hm) as (A & HA & _ & [(_ & Hf & _)|(_ & _ & _ & Hme)]).
  { congruence. }
  subst A. split; [exact Hme|].
  intros x Hx Hin. rewrite Hme in Hin. apply in_app_or in Hin as [Hin|Hin]; [|exact Hin].
  exfalso. apply filter_In in Hin as [_ Hneg].
  assert (Hkx : entry_key x = entry_key r1) by (destruct Hx as [->| ->]; auto).
  rewrite Hkx, key_mem_In in Hneg; [discriminate Hneg|].
  apply in_flat_map. exists a. split; [exact Ha|].
  unfold replaced_keys. rewrite Hrep. apply in_map. exact Hr1.
Qed.

Definition e_app_payload_a : Entry := mkEntry (Some "app") (Some "1.0.0") None [("description", "a")].
Definition e_app_payload_b : Entry := mkEntry (Some "app") (Some "1.0.0") None [("description", "b")].

Definition r_upgrade : UpsertResult :=
  mkUpsertResult "app" REPLACE (M_version_upgrade "1.0.0" "1.1.0") e_app_v1_1
    [e_app_payload_a] None.

Definition res_upgrade : MergeResult := mkMergeResult true [e_app_v1_1] [r_upgrade] [].

Lemma merge_entries_removes_by_key_witness :
  merge_entries [e_app_v1_1] [e_app_payload_a; e_app_payload_b] "v1" [] = Some res_upgrade /\
  success res_upgrade = true /\ entry_key e_app_payload_a = entry_key e_app_payload_b /\
  merged_entries res_upgrade =
    filter (fun e => negb (key_mem (entry_key e)
                             (flat_map replaced_keys (actions res_upgrade))))
      [e_app_payload_a; e_app_payload_b]
    ++ map new_entry (filter is_insert_or_replace (actions res_upgrade)) /\
  (forall x, (x = e_app_payload_a \/ x = e_app_payload_b) -> In x (merged_entries res_upgrade) ->
     In x (map new_entry (filter is_insert_or_replace (actions res_upgrade)))).
Proof.
  split; [vm_compute; reflexivity|]. split; [reflexivity|]. split; [reflexivity|].
  apply (merge_entries_removes_by_key [e_app_v1_1] [e_app_payload_a; e_app_payload_b] "v1" []
           res_upgrade e_app_payload_a e_app_payload_b r_upgrade).
  - vm_compute; reflexivity.
  - reflexivity.
  - reflexivity.
  - left; reflexivity.
  - reflexivity.
  - left; reflexivity.
Defined.

(** ** The catalog invariant *)

(** Two entries whose constraints are both present and compare DISJOINT. *)
Definition disjoint_entries (a b : Entry) : Prop :=
  match e_kamiwaza_version a, e_kamiwaza_version b with
  | Some x, Some y => compare_constraints x y = Some DISJOINT
  | _, _ => False
  end.

(** Format v1 (garden version [v1] or [default]): two entries never share a
    name.  Format v2: two entries sharing a name have disjoint constraints. *)
Definition catalog_rel (garden_version : string) (a b : Entry) : Prop :=
  if is_v1_format garden_version then get_name a <> get_name b
  else get_name a = get_name b -> disjoint_entries a b.

Definition catalog_invariant (garden_version : string) (l : list Entry) : Prop :=
  ForallOrdPairs (catalog_rel garden_version) l.

Lemma ForallOrdPairs_app {A} (R : A -> A -> Prop) l1 l2 :
  ForallOrdPairs R l1 -> ForallOrdPairs R l2 ->
  (forall x y, In x l1 -> In y l2 -> R x y) -> ForallOrdPairs R (l1 ++ l2).
Proof.
  induction 1 as [|a l1' Ha Hl1 IH]; intros H2 Hx; simpl; [exact H2|].
  constructor.
  - apply Forall_app. split; [exact Ha|].
    apply Forall_forall. intros y Hy. apply Hx; [left; reflexivity|exact Hy].
  - apply IH; [exact H2|]. intros x y Hx' Hy. apply Hx; [right; exact Hx'|exact Hy].
Qed.

Lemma ForallOrdPairs_filter {A} (R : A -> A -> Prop) (f : A -> bool) l :
  ForallOrdPairs R l -> ForallOrdPairs R (filter f l).
Proof.
  induction 1 as [|a l' Ha Hl IH]; simpl; [constructor|].
  destruct (f a); [|exact IH]. constructor; [|exact IH].
  apply Forall_forall. intros y Hy. apply filter_In in Hy as [Hy _].
  exact (proj1 (Forall_forall _ _) Ha y Hy).
Qed.

Lemma ForallOrdPairs_app_inv_r {A} (R : A -> A -> Prop) l1 l2 :
  ForallOrdPairs R (l1 ++ l2) -> ForallOrdPairs R l2.
Proof.
  induction l1 as [|a l1 IH]; simpl; [auto|].
  intro H. inversion H; subst. apply IH. assumption.
Qed.

(** Case analysis on the [match]es of a hypothesis about the decision code. *)
Ltac split_hyp_matches H :=
  repeat match type of H with
  | context [match ?x with _ => _ end] => let E := fresh "E" in destruct x eqn:E
  | context [if ?x then _ else _] => let E := fresh "E" in destruct x eqn:E
  end.

Lemma v2_loop_new_entry name nv nc ne existing acc r :
  v2_loop name nv nc ne existing acc = Some (inl r) -> new_entry r = ne.
Proof.
  revert acc. induction existing as [|x xs IH]; intros acc H; simpl in H; [discriminate H|].
  split_hyp_matches H; try discriminate H;
    try (injection H as <-; reflexivity); eapply IH; exact H.
Qed.

Lemma v2_loop_inl_fail name nv nc ne existing acc r :
  v2_loop name nv nc ne existing acc = Some (inl r) -> action r = FAIL.
Proof.
  revert acc. induction existing as [|x xs IH]; intros acc H; simpl in H; [discriminate H|].
  split_hyp_matches H; try discriminate H;
    try (injection H as <-; reflexivity); eapply IH; exact H.
Qed.

Lemma v2_loop_cover name nv nc ne existing acc m :
  v2_loop name nv nc ne existing acc = Some (inr m) ->
  (forall x, In x acc -> In x m) /\
  (forall x, In x existing ->
     In x m \/ exists ec, e_kamiwaza_version x = Some ec /\
                          compare_constraints nc ec = Some DISJOINT).
Proof.
  revert acc. induction existing as [|x xs IH]; intros acc H; simpl in H.
  - injection H as <-. split; [auto|intros x []].
  - split_hyp_matches H; try discriminate H;
      destruct (IH _ H) as [Hacc Hxs].
    + (* DISJOINT *)
      split; [exact Hacc|]. intros y [<-|Hy]; [right; eauto|apply Hxs; exact Hy].
    + (* SAME, NEWER *)
      split; [intros y Hy; apply Hacc, in_or_app; left; exact Hy|].
      intros y [<-|Hy]; [left; apply Hacc, in_or_app; right; left; reflexivity|].
      apply Hxs; exact Hy.
    + (* SUPERSET *)
      split; [intros y Hy; apply Hacc, in_or_app; left; exact Hy|].
      intros y [<-|Hy]; [left; apply Hacc, in_or_app; right; left; reflexivity|].
      apply Hxs; exact Hy.
Qed.

Lemma decision_new_entry c existing garden_version force_entries r :
  determine_upsert_action c existing garden_version force_entries = Some r -> new_entry r = c.
Proof.
  unfold determine_upsert_action, determine_upsert_action_forced,
    determine_upsert_action_v1, determine_upsert_action_v2.
  intro H. split_hyp_matches H; try discriminate H;
    try (injection H as <-; reflexivity).
  all: injection H as <-; eapply v2_loop_new_entry; eassumption.
Qed.

(** Every existing entry of the candidate's name is either replaced, or (v2)
    disjoint from the candidate, or (v1) not the first one. *)
Lemma decision_covers_existing c existing garden_version force_entries r x :
  determine_upsert_action c existing garden_version force_entries = Some r ->
  action r <> FAIL -> In x existing ->
  (action r = REPLACE /\ In x (replaced_entries r)) \/
  (is_v1_format garden_version = false /\
   exists nc ec, e_kamiwaza_version c = Some nc /\ e_kamiwaza_version x = Some ec /\
                 compare_constraints nc ec = Some DISJOINT) \/
  (is_v1_format garden_version = true /\
   exists y rest, existing = y :: rest /\ In x rest).
Proof.
  intros H Hnf Hx. unfold determine_upsert_action in H.
  destruct (str_mem (get_name c) force_entries).
  - (* forced *)
    unfold determine_upsert_action_forced in H.
    destruct (e_name c); [|discriminate H].
    destruct existing as [|y ys]; [destruct Hx|].
    injection H as <-. left. split; [reflexivity|exact Hx].
  - destruct (is_v1_format garden_version) eqn:Hv1.
    + (* v1 *)
      unfold determine_upsert_action_v1 in H.
      destruct existing as [|y ys]; [destruct Hx|].
      destruct Hx as [<-|Hx]; [|right; right; split; [reflexivity|eauto]].
      left. split_hyp_matches H; try discriminate H; injection H as <-;
        [split; [reflexivity|left; reflexivity]|exfalso; apply Hnf; reflexivity..].
    + (* v2 *)
      unfold determine_upsert_action_v2 in H.
      destruct (e_name c) as [n|]; [|discriminate H].
      destruct (e_version c) as [nv|]; [|discriminate H].
      destruct (e_kamiwaza_version c) as [nc|] eqn:Hnc;
        [|injection H as <-; exfalso; apply Hnf; reflexivity].
      destruct (negb (truthy (Some nc)));
        [injection H as <-; exfalso; apply Hnf; reflexivity|].
      destruct existing as [|y ys]; [destruct Hx|].
      destruct (v2_loop n nv nc c (y :: ys) []) as [[r'|m]|] eqn:Hl; [| |discriminate H].
      * injection H as <-. exfalso. apply Hnf. eapply v2_loop_inl_fail. exact Hl.
      * destruct (v2_loop_cover _ _ _ _ _ _ _ Hl) as [_ Hcov].
        destruct (Hcov x Hx) as [Hm|(ec & Hec & Hd)].
        -- destruct m as [|z zs]; [destruct Hm|].
           injection H as <-. left. split; [reflexivity|exact Hm].
        -- right; left. split; [reflexivity|]. exists nc, ec. auto.
Qed.

Lemma no_fail_filter_all (A : list UpsertResult) :
  filter is_fail A = [] -> filter is_insert_or_replace A = A /\ Forall (fun a => action a <> FAIL) A.
Proof.
  induction A as [|a A IH]; simpl; [split; constructor|].
  unfold is_fail at 1, is_insert_or_replace at 1.
  destruct (action a) eqn:Ha; intro H; try discriminate H;
    destruct (IH H) as [-> HF]; (split; [reflexivity|constructor; [congruence|exact HF]]).
Qed.

Lemma map_new_entry_local remote garden_version force_entries local A :
  Forall2 (fun c a => decision_of remote garden_version force_entries c = Some a) local A ->
  map new_entry A = local.
Proof.
  induction 1 as [|c a cs As Hca _ IH]; simpl; [reflexivity|].
  rewrite IH. f_equal. eapply decision_new_entry. exact Hca.
Qed.

Lemma disjoint_entries_sym a b : disjoint_entries a b -> disjoint_entries b a.
Proof.
  unfold disjoint_entries.
  destruct (e_kamiwaza_version a) as [x|], (e_kamiwaza_version b) as [y|]; try contradiction.
  apply (compare_constraints_symmetric x y).
Qed.

(** A second constraint range of [app], disjoint from the other two. *)
Definition e_app_next_range : Entry :=
  mkEntry (Some "app") (Some "2.0.0") (Some ">=1.0.0,<1.1.0") [].

Definition c1_merge_outcome : option MergeResult :=
  Eval vm_compute in merge_entries [e_app_disj_new; e_app_next_range] [e_app_disj_old] "v2" [].

Definition c1_merge_result : MergeResult :=
  match c1_merge_outcome with
  | Some r => r
  | None => mkMergeResult false [] [] []
  end.

(** C1 (as stated: for every batch, also one with two candidates of the
    same name) fails: two candidates of one name against an empty remote
    catalog are both inserted.  In format v1 the merged catalog holds the
    name twice; in format v2 it holds two entries with the same constraint. *)
Lemma merge_entries_same_name_batch_breaks_invariant :
  (catalog_invariant "v1" [] /\
   exists res, merge_entries [e_app_v1_0; e_app_v1_1] [] "v1" [] = Some res /\
     success res = true /\ ~ catalog_invariant "v1" (merged_entries res)) /\
  (catalog_invariant "v2" [] /\
   exists res,
     merge_entries [e_app_disj_new; mkEntry (Some "app") (Some "1.1.0")
                                      (Some ">=0.9.0,<1.0.0") []] [] "v2" [] = Some res /\
     success res = true /\ ~ catalog_invariant "v2" (merged_entries res)).
Proof.
  split; (split; [constructor|]); (eexists; split; [vm_compute; reflexivity|]);
    (split; [reflexivity|]); simpl; intro H;
    inversion H as [|? ? Hhd _]; subst; inversion Hhd as [|? ? Hr _]; subst;
    unfold catalog_rel in Hr; simpl in Hr.
  - apply Hr. reflexivity.
  - specialize (Hr eq_refl). unfold disjoint_entries in Hr. simpl in Hr.
    vm_compute in Hr. discriminate Hr.
Qed.

(** C1, amended: for a remote catalog satisfying the invariant of its format,
    a successful [merge_entries] yields a merged list that satisfies the
    invariant exactly when the local batch itself satisfies it (format v1: no
    two candidates share a name; format v2: candidates sharing a name have
    disjoint constraints).  The merged list ends with the whole batch, so the
    condition cannot be dropped. *)
Theorem merge_entries_preserves_catalog_invariant (local remote : list Entry)
  (garden_version : string) (force_entries : list string) (res : MergeResult) :
  catalog_invariant garden_version remote ->
  merge_entries local remote garden_version force_entries = Some res ->
  success res = true ->
  catalog_invariant garden_version (merged_entries res) <->
  catalog_invariant garden_version local.
Proof.
  intros Hinv Hm Hs.
  destruct (merge_entries_result _ _ _ _ _ Hm)
    as (A & HA & HF & [(_ & Hf & _)|(Hnf & _ & _ & Hme)]); [congruence|].
  destruct (no_fail_filter_all A Hnf) as [Hall HnfA].
  rewrite Hme, Hall, (map_new_entry_local _ _ _ _ _ HF).
  split; [apply ForallOrdPairs_app_inv_r|intro Hloc].
  assert (Hdiff : forall a b, get_name a <> get_name b -> catalog_rel garden_version a b).
  { intros a b Hab. unfold catalog_rel. destruct (is_v1_format garden_version);
      [exact Hab|intro Heq; contradiction]. }
  apply ForallOrdPairs_app.
  - apply ForallOrdPairs_filter. exact Hinv.
  - exact Hloc.
  - intros x c Hx Hc.
    destruct (String.eqb (get_name x) (get_name c)) eqn:Hname;
      [|apply Hdiff; intro Heq; rewrite Heq, String.eqb_refl in Hname; discriminate Hname].
    apply filter_In in Hx as [Hxr Hkeep].
    destruct (Forall2_in_left _ _ _ _ HF Hc) as (a & Ha & Hda).
    assert (Hxex : In x (remote_by_name remote (get_name c)))
      by (apply filter_In; split; assumption).
    assert (Hna : action a <> FAIL) by (exact (proj1 (Forall_forall _ _) HnfA a Ha)).
    destruct (decision_covers_existing _ _ _ _ _ _ Hda Hna Hxex)
      as [(Hrep & Hin)|[(Hv2 & nc & ec & Hnc & Hec & Hd)|(Hv1 & y & rest & Hex & Hrest)]].
    + (* replaced: removed by its key *)
      exfalso. rewrite key_mem_In in Hkeep; [discriminate Hkeep|].
      apply in_flat_map. exists a. split; [exact Ha|].
      unfold replaced_keys. rewrite Hrep. apply in_map. exact Hin.
    + (* v2, disjoint from the candidate *)
      unfold catalog_rel. rewrite Hv2. intros _.
      apply disjoint_entries_sym. unfold disjoint_entries. rewrite Hnc, Hec. exact Hd.
    + (* v1: a second entry of the name in the remote catalog *)
      exfalso.
      assert (Hg : ForallOrdPairs (catalog_rel garden_version)
                     (remote_by_name remote (get_name c)))
        by (apply ForallOrdPairs_filter; exact Hinv).
      rewrite Hex in Hg. inversion Hg as [|? ? Hy _]; subst.
      pose proof (proj1 (Forall_forall _ _) Hy x Hrest) as Hyx.
      unfold catalog_rel in Hyx. rewrite Hv1 in Hyx. apply Hyx.
      assert (Hyin : In y (remote_by_name remote (get_name c))) by (rewrite Hex; left; auto).
      assert (Hxin : In x (remote_by_name remote (get_name c))) by (rewrite Hex; right; auto).
      apply filter_In in Hyin as [_ Hy1]. apply filter_In in Hxin as [_ Hx1].
      apply String.eqb_eq in Hy1, Hx1. congruence.
Qed.

Lemma merge_entries_preserves_catalog_invariant_witness :
  merge_entries [e_app_disj_new; e_app_next_range] [e_app_disj_old] "v2" [] = Some c1_merge_result /\
  success c1_merge_result = true /\
  merged_entries c1_merge_result = [e_app_disj_old; e_app_disj_new; e_app_next_range] /\
  catalog_invariant "v2" (merged_entries c1_merge_result).
Proof.
  split; [vm_compute; reflexivity|]. split; [reflexivity|]. split; [reflexivity|].
  apply (merge_entries_preserves_catalog_invariant [e_app_disj_new; e_app_next_range]
           [e_app_disj_old] "v2" [] c1_merge_result).
  - repeat constructor.
  - vm_compute; reflexivity.
  - reflexivity.
  - repeat constructor; unfold catalog_rel, disjoint_entries; simpl; intros _;
      vm_compute; reflexivity.
Defined.

(** ** The publish workflow *)

(** Symbolic execution of [run]: the remote store, the directories and the
    merge stay opaque, every branch on a condition is split. *)
Ltac unfold_workflow :=
  unfold try_finally, try_except, dry_run_branch, live_branch, restore_handler, cleanup,
    download_registry, upload_registry, verify_upload, acquire_lock, release_lock,
    lift_option, print, emit, write_remote, set_lock_acquired, set_download, set_had_error,
    bind, ret, raise, gets, modify.

Ltac reduce_workflow :=
  cbn -[merge_registries validate_local_registry garden_prefix lock_key sync_down
        sync_up put_object rm_object check_lock_exists verify_files copytree
        get_garden_dir sync_result].

Ltac split_workflow :=
  repeat (reduce_workflow;
          match goal with
          | |- context [match ?x with _ => _ end] =>
              lazymatch type of x with
              | prod _ _ => is_var x; destruct x
              | World => fail
              | _ => let E := fresh "E" in destruct x eqn:E
              end
          end);
  reduce_workflow.

Lemma str_app_assoc (a b c : string) : ((a ++ b) ++ c)%string = (a ++ (b ++ c))%string.
Proof. induction a as [|x a IH]; simpl; [reflexivity|rewrite IH; reflexivity]. Qed.

Lemma str_app_inv_head (p a b : string) : (p ++ a)%string = (p ++ b)%string -> a = b.
Proof. induction p as [|x p IH]; simpl; [auto|intro H; injection H; exact IH]. Qed.

Lemma lock_key_under_prefix name gd : lock_key name gd = (garden_prefix gd ++ name)%string.
Proof. unfold lock_key, garden_prefix. rewrite !str_app_assoc. reflexivity. Qed.

Lemma strip_prefix_app p r : strip_prefix p (p ++ r) = Some r.
Proof.
  induction p as [|x p IH]; simpl; [reflexivity|]. rewrite Ascii.eqb_refl. exact IH.
Qed.

Lemma sync_up_delete_at src p st r : sync_up src p true st (p ++ r)%string = src r.
Proof. unfold sync_up. rewrite strip_prefix_app. destruct (src r); reflexivity. Qed.



Lemma rm_object_other k k' st : k' <> k -> rm_object k st k' = st k'.
Proof. unfold rm_object. intro H. apply String.eqb_neq in H. rewrite H. reflexivity. Qed.



Lemma check_lock_exists_absent name gd st :
  st (lock_key name gd) = None -> check_lock_exists name gd st = false.
Proof. unfold check_lock_exists. intro H. rewrite H. reflexivity. Qed.

Lemma check_lock_exists_contains name gd st :
  check_lock_exists name gd st = true -> str_contains ".lock" name = true.
Proof. unfold check_lock_exists. destruct (st (lock_key name gd)); congruence. Qed.

Lemma lock_key_not_catalog name gd f :
  str_contains ".lock" name = true -> f = "apps.json" \/ f = "tools.json" ->
  (garden_prefix gd ++ f)%string <> lock_key name gd.
Proof.
  intros Hc Hf H. rewrite lock_key_under_prefix in H. apply str_app_inv_head in H.
  subst name. destruct Hf as [-> | ->]; discriminate Hc.
Qed.

Lemma sync_up_lock_key src name gd st :
  sync_up src (garden_prefix gd) true st (lock_key name gd) = src name.
Proof. rewrite lock_key_under_prefix. apply sync_up_delete_at. Qed.

(** The merged output directory holds [apps.json], [tools.json] and the
    image trees, nothing else. *)
Lemma merge_registries_output_at local remote gv fe ok ar tr out name :
  merge_registries local remote gv fe = Some (ok, ar, tr, out) ->
  name <> "apps.json" -> name <> "tools.json" ->
  strip_prefix "images/" name = None -> strip_prefix "app-garden-images/" name = None ->
  out name = None.
Proof.
  intros H Ha Ht Hi Hg. unfold merge_registries in H.
  destruct (merge_entries _ _ _ _) as [a|]; [|discriminate H].
  destruct (merge_entries _ _ _ _) as [t|]; [|discriminate H].
  injection H as _ _ _ <-.
  destruct (success a && success t); [|reflexivity].
  apply String.eqb_neq in Ha. apply String.eqb_neq in Ht. rewrite Ha, Ht.
  destruct (String.eqb gv "v2"); cbn [String.append]; [rewrite Hi|rewrite Hg]; reflexivity.
Qed.


(** The history from the first upload write on. *)
Fixpoint from_upload (log : list Event) : list Event :=
  match log with
  | [] => []
  | RemoteWrite OpUpload st :: rest => RemoteWrite OpUpload st :: rest
  | _ :: rest => from_upload rest
  end.

(** A remote write after which the object [lk] exists. *)
Definition holds_lock (lk : string) (ev : Event) : bool :=
  match ev with
  | RemoteWrite _ st => match st lk with Some _ => true | None => false end
  | Printed _ => false
  end.

(** Concrete runs: a remote [v2] garden with one app, a local registry with
    a new constraint range of the same app. *)
Definition remote_start : Store :=
  fun k => if String.eqb k "garden/v2/apps.json" then Some (Catalog [e_app_disj_old]) else None.

Definition remote_conflict : Store :=
  fun k => if String.eqb k "garden/v2/apps.json" then Some (Catalog [e_app_partial]) else None.

Definition local_v2 : Dir :=
  fun r => if String.eqb r "v2/apps.json" then Some (Catalog [e_app_disj_new]) else None.

Definition env_ok : Env :=
  mkEnv true "registry.lock" "{}" true true DlOk None (fun st => st) true None true.

(** Another party deletes [apps.json] between upload and verification. *)
Definition env_verify_mismatch : Env :=
  mkEnv true "registry.lock" "{}" true true DlOk None
    (fun st k => if String.eqb k "garden/v2/apps.json" then None else st k) true None true.

Definition args_publish : Args := mkArgs "v2" local_v2 false None.
Definition args_dry_run : Args := mkArgs "v2" local_v2 true None.

Definition fresh_world (st : Store) : World := mkWorld st empty_dir empty_dir None false false [].




(** C5 (as stated, refuted): a dry run whose simulated merge fails does not
    exit with 0.  Here the candidate range [>=0.9.0,<1.0.0] partially
    overlaps the remote [>=0.8.0,<0.9.5]; the dry run prints the merge
    summary and the would-fail line and exits with 1. *)
Lemma dry_run_failing_merge_exits_1 :
  a_dry_run args_dry_run = true /\
  snd (run env_ok args_dry_run (fresh_world remote_conflict)) = 1 /\
  In (Printed LDryRunWouldFail) (w_log (fst (run env_ok args_dry_run (fresh_world remote_conflict)))).
Proof.
  split; [reflexivity|]. split; [vm_compute; reflexivity|].
  vm_compute. right; left; reflexivity.
Qed.

(** C5 (amended). A dry run never writes to the remote store: the store is
    unchanged and the history gains no remote write (no lock is put).  When
    the bucket is configured and the local registry validates, the merge is
    simulated against the downloaded remote (an empty directory if the
    download fails), its summary is printed, and the run exits with 0 if the
    merge would succeed and with 1 if it would fail. *)
Theorem dry_run_never_writes_remote (env : Env) (args : Args) (w0 : World) :
  let gd := get_garden_dir (a_repo_version args) in
  a_dry_run args = true ->
  let (w, code) := run env args w0 in
  w_remote w = w_remote w0 /\
  (forall op st, In (RemoteWrite op st) (w_log w) -> In (RemoteWrite op st) (w_log w0)) /\
  (forall ok apps_result tools_result out,
     env_bucket_ok env = true ->
     validate_local_registry (a_local_registry args) gd (a_repo_version args) = true ->
     merge_registries (a_local_registry args) (sync_result env gd (w_remote w0) empty_dir)
       (a_repo_version args) (force_entries_of (a_force_name args)) =
       Some (ok, apps_result, tools_result, out) ->
     In (Printed (LMergeSummary apps_result tools_result)) (w_log w) /\
     code = if ok then 0 else 1).
Proof.
  intros gd Hd. unfold run, main. fold gd. rewrite Hd. unfold_workflow. split_workflow.
  all: split; [reflexivity|]; split.
  all: try (intros op st H; exact H).
  all: try (intros op st H; rewrite <- ?app_assoc in H; apply in_app_or in H as [H|H];
            [exact H|simpl in H; intuition discriminate]).
  all: intros ok ar tr out Hb Hv Hm.
  all: repeat match goal with H : negb _ = true |- _ => apply negb_true_iff in H end.
  all: try (match goal with E : env_download _ = DlError |- _ =>
               unfold sync_result in Hm; rewrite E in Hm end).
  all: try congruence.
  all: try (match goal with E : merge_registries _ _ _ _ = _ |- _ =>
                tryif constr_eq E Hm then fail else rewrite E in Hm end).
  all: injection Hm as <- <- <- <-.
  all: split; [rewrite <- ?app_assoc; apply in_or_app; right; simpl; auto|].
  all: repeat match goal with H : negb _ = false |- _ => apply negb_false_iff in H end.
  all: subst; reflexivity.
Qed.

Lemma dry_run_never_writes_remote_witness :
  let gd := get_garden_dir (a_repo_version args_dry_run) in
  let (w, code) := run env_ok args_dry_run (fresh_world remote_conflict) in
  w_remote w = w_remote (fresh_world remote_conflict) /\
  (forall op st, In (RemoteWrite op st) (w_log w) ->
                 In (RemoteWrite op st) (w_log (fresh_world remote_conflict))) /\
  (forall ok apps_result tools_result out,
     env_bucket_ok env_ok = true ->
     validate_local_registry (a_local_registry args_dry_run) gd (a_repo_version args_dry_run)
       = true ->
     merge_registries (a_local_registry args_dry_run)
       (sync_result env_ok gd (w_remote (fresh_world remote_conflict)) empty_dir)
       (a_repo_version args_dry_run) (force_entries_of (a_force_name args_dry_run)) =
       Some (ok, apps_result, tools_result, out) ->
     In (Printed (LMergeSummary apps_result tools_result)) (w_log w) /\
     code = if ok then 0 else 1).
Proof.
  apply (dry_run_never_writes_remote env_ok args_dry_run (fresh_world remote_conflict)).
  reflexivity.
Defined.

(** C9 (as stated, refuted): after the upload the lock object can exist
    again before the run completes.  The verification fails, the restore
    re-uploads the backup, which was downloaded after the lock was written
    and so holds the lock file; the cleanup removes it afterwards. *)
Lemma lock_reappears_after_upload :
  let log := w_log (fst (run env_verify_mismatch args_publish (fresh_world remote_start))) in
  from_upload log <> [] /\
  existsb (fun ev => match ev with RemoteWrite OpRestore _ => holds_lock "garden/v2/registry.lock" ev
                                 | _ => false end) (from_upload log) = true.
Proof. vm_compute. split; [discriminate|reflexivity]. Qed.

(** C9 (amended). In a live run (empty history at the start, a lock name
    that is neither [apps.json] nor [tools.json] and lies outside the image
    trees), a successful upload sync with delete leaves no lock object: the
    merged output holds no lock file.  If the run succeeds and the other
    parties' writes do not create the lock, the release step prints that
    there is no lock to release, and no remote write from the upload to the
    end leaves a lock object.  (On the failure path the restore can
    re-create it, see above.) *)
Theorem upload_removes_lock (env : Env) (args : Args) (w0 : World) :
  let gd := get_garden_dir (a_repo_version args) in
  let lk := lock_key (env_lock_name env) gd in
  a_dry_run args = false -> w_log w0 = [] ->
  env_lock_name env <> "apps.json" -> env_lock_name env <> "tools.json" ->
  strip_prefix "images/" (env_lock_name env) = None ->
  strip_prefix "app-garden-images/" (env_lock_name env) = None ->
  let (w, code) := run env args w0 in
  (env_upload_fault env = None ->
   forall st, In (RemoteWrite OpUpload st) (w_log w) -> st lk = None) /\
  (code = 0 -> (forall st, st lk = None -> env_interference env st lk = None) ->
   In (Printed LNoLockToRelease) (w_log w) /\
   forall ev, In ev (from_upload (w_log w)) -> holds_lock lk ev = false).
Proof.
  intros gd lk Hd Hl0 Hna Hnt Hi Hg. unfold run, main. fold gd. rewrite Hd.
  unfold_workflow. split_workflow.
  all: rewrite ?Hl0.
  all: repeat match goal with H : negb _ = true |- _ => apply negb_true_iff in H end.
  all: repeat match goal with H : negb _ = false |- _ => apply negb_false_iff in H end.
  all: split; [intros Hf st Hst; try discriminate Hf
              |intros Hcode Hint; try discriminate Hcode].
  all: repeat rewrite <- app_assoc in *; cbn [app In from_upload] in *.
  all: try (match goal with E : merge_registries _ _ _ _ = Some (_, _, _, ?d) |- _ =>
              assert (Hdn : d (env_lock_name env) = None)
                by (eapply merge_registries_output_at; eassumption) end).
  all: assert (Hup : forall src st, src (env_lock_name env) = None ->
                       sync_up src (garden_prefix gd) true st lk = None)
         by (intros src st' Hs; unfold lk; rewrite sync_up_lock_key; exact Hs).
  (* the upload write *)
  all: try (repeat destruct Hst as [Hst|Hst]; try discriminate Hst; try contradiction;
            injection Hst as <-; apply Hup; exact Hdn).
  (* on the success path the release finds no lock *)
  all: try (exfalso; match goal with
                     | E : check_lock_exists _ _ (env_interference _ ?s) = true |- _ =>
                         rewrite check_lock_exists_absent in E; [discriminate E|];
                         apply Hint, Hup, Hdn
                     end).
  all: split; [repeat first [left; reflexivity | right] |].
  all: intros ev Hev; repeat destruct Hev as [Hev|Hev]; try contradiction; subst ev;
         cbn [holds_lock]; fold lk; try reflexivity.
  all: rewrite ?Hint, ?Hup by (try apply Hup; exact Hdn); reflexivity.
Qed.

Definition env_plain_lock : Env :=
  mkEnv true "publish-lock" "{}" true true DlOk None (fun st => st) true None true.

Lemma upload_removes_lock_witness :
  snd (run env_plain_lock args_publish (fresh_world remote_start)) = 0 /\
  let gd := get_garden_dir (a_repo_version args_publish) in
  let lk := lock_key (env_lock_name env_plain_lock) gd in
  let (w, code) := run env_plain_lock args_publish (fresh_world remote_start) in
  (env_upload_fault env_plain_lock = None ->
   forall st, In (RemoteWrite OpUpload st) (w_log w) -> st lk = None) /\
  (code = 0 -> (forall st, st lk = None -> env_interference env_plain_lock st lk = None) ->
   In (Printed LNoLockToRelease) (w_log w) /\
   forall ev, In ev (from_upload (w_log w)) -> holds_lock lk ev = false).
Proof.
  split; [vm_compute; reflexivity|].
  apply (upload_removes_lock env_plain_lock args_publish (fresh_world remote_start)).
  - reflexivity.
  - reflexivity.
  - discriminate.
  - discriminate.
  - reflexivity.
  - reflexivity.
Defined.

(* ================================================================== *)
(** * Further properties of the code *)

(** ** Constraint comparison on the test versions *)

Section SamplingFacts.
Variables (V S : Type) (contains : S -> V -> bool) (samples : list V).

Lemma sample_equal_spec s1 s2 :
  sample_equal contains samples s1 s2 = true <->
  forall v, In v samples -> contains s1 v = contains s2 v.
Proof.
  unfold sample_equal. rewrite forallb_forall.
  split; intros H v Hv; specialize (H v Hv).
  - apply Bool.eqb_prop in H. exact H.
  - rewrite H. apply Bool.eqb_reflx.
Qed.

Lemma sample_superset_spec s1 s2 :
  sample_superset contains samples s1 s2 = true <->
  forall v, In v samples -> contains s2 v = true -> contains s1 v = true.
Proof.
  unfold sample_superset. rewrite forallb_forall.
  split; intros H v Hv; specialize (H v Hv).
  - intro H2. rewrite H2 in H. destruct (contains s1 v); [reflexivity|discriminate H].
  - destruct (contains s2 v), (contains s1 v); simpl; auto.
Qed.

Lemma sample_relationship_partial s1 s2 :
  sample_relationship contains samples s1 s2 = PARTIAL ->
  sample_overlap contains samples s1 s2 = true /\
  sample_superset contains samples s1 s2 = false /\
  sample_superset contains samples s2 s1 = false.
Proof.
  unfold sample_relationship.
  destruct (sample_equal contains samples s1 s2) eqn:Heq,
    (sample_overlap contains samples s1 s2),
    (sample_superset contains samples s1 s2) eqn:H12,
    (sample_superset contains samples s2 s1) eqn:H21;
    simpl; intro H; try discriminate H; auto.
  exfalso.
  pose proof (proj1 (sample_superset_spec s1 s2) H12) as G12.
  pose proof (proj1 (sample_superset_spec s2 s1) H21) as G21.
  assert (Hs : sample_equal contains samples s1 s2 = true).
  { apply sample_equal_spec. intros v Hv.
    specialize (G12 v Hv). specialize (G21 v Hv).
    destruct (contains s1 v), (contains s2 v); try reflexivity.
    - discriminate (G21 eq_refl).
    - discriminate (G12 eq_refl). }
  congruence.
Qed.
End SamplingFacts.

(** X4. When [compare_constraints] answers PARTIAL, the two constraints
    share a test version and neither contains the other on the test
    versions: the final [else] branch is never reached with both superset
    checks true (those constraints are equal and were answered SAME). *)
Theorem compare_constraints_partial_no_containment c1 c2 :
  compare_constraints c1 c2 = Some PARTIAL ->
  constraints_overlap c1 c2 = Some true /\ is_superset c1 c2 = Some false /\
  is_superset c2 c1 = Some false.
Proof.
  rewrite compare_constraints_sampled. unfold constraints_overlap, is_superset.
  destruct (parse_constraint c1) as [s1|], (parse_constraint c2) as [s2|];
    cbv beta iota zeta; intro H; try discriminate H.
  injection H as H. apply sample_relationship_partial in H as (Ho & H12 & H21).
  rewrite Ho, H12, H21. auto.
Qed.

Lemma compare_constraints_partial_no_containment_witness :
  compare_constraints ">=0.8.0,<0.9.5" ">=0.9.0,<1.0.0" = Some PARTIAL /\
  constraints_overlap ">=0.8.0,<0.9.5" ">=0.9.0,<1.0.0" = Some true /\
  is_superset ">=0.8.0,<0.9.5" ">=0.9.0,<1.0.0" = Some false /\
  is_superset ">=0.9.0,<1.0.0" ">=0.8.0,<0.9.5" = Some false.
Proof.
  assert (H : compare_constraints ">=0.8.0,<0.9.5" ">=0.9.0,<1.0.0" = Some PARTIAL)
    by (vm_compute; reflexivity).
  split; [exact H|]. apply compare_constraints_partial_no_containment. exact H.
Defined.

(** ** Merging a batch *)

Lemma opt_str_eqb_sound a b : opt_str_eqb a b = true -> a = b.
Proof.
  destruct a, b; simpl; intro H; try discriminate H; [|reflexivity].
  apply String.eqb_eq in H. subst. reflexivity.
Qed.

Lemma key_eqb_sound k1 k2 : key_eqb k1 k2 = true -> k1 = k2.
Proof.
  destruct k1 as [[a1 b1] c1], k2 as [[a2 b2] c2]. simpl. intro H.
  apply andb_prop in H as [H Hc]. apply andb_prop in H as [Ha Hb].
  apply opt_str_eqb_sound in Ha, Hb, Hc. subst. reflexivity.
Qed.

Lemma key_mem_sound k K : key_mem k K = true -> In k K.
Proof.
  unfold key_mem. intro H. apply existsb_exists in H as (k' & Hk' & He).
  apply key_eqb_sound in He. subst. exact Hk'.
Qed.

Lemma str_mem_In s l : str_mem s l = true <-> In s l.
Proof.
  unfold str_mem. rewrite existsb_exists. split.
  - intros (x & Hx & He). apply String.eqb_eq in He. subst. exact Hx.
  - intro H. exists s. split; [exact H|apply String.eqb_refl].
Qed.

Lemma filter_keep_all (l : list Entry) :
  filter (fun e => negb (key_mem (entry_key e) [])) l = l.
Proof. induction l as [|x l IH]; cbn [filter]; [reflexivity|rewrite IH; reflexivity]. Qed.

Lemma get_name_of_key x r : entry_key x = entry_key r -> get_name x = get_name r.
Proof. unfold entry_key, get_name. intro H. injection H as H _ _. rewrite H. reflexivity. Qed.

Lemma v2_loop_replaced name nv nc ne existing acc res :
  v2_loop name nv nc ne existing acc = Some res ->
  match res with
  | inl r => replaced_entries r = []
  | inr m => forall x, In x m -> In x acc \/ In x existing
  end.
Proof.
  revert acc. induction existing as [|y ys IH]; intros acc H; simpl in H.
  - injection H as <-. auto.
  - split_hyp_matches H; try discriminate H;
      try (injection H as <-; reflexivity);
      specialize (IH _ H); destruct res as [r|m]; try exact IH;
      intros x Hx; destruct (IH x Hx) as [Hacc|Hys]; auto using in_cons.
    all: apply in_app_or in Hacc as [Hacc|[<-|[]]]; auto using in_eq.
Qed.

(** The entries a decision replaces are existing entries. *)
Lemma decision_replaced_existing c existing garden_version force_entries a x :
  determine_upsert_action c existing garden_version force_entries = Some a ->
  In x (replaced_entries a) -> In x existing.
Proof.
  unfold determine_upsert_action, determine_upsert_action_forced,
    determine_upsert_action_v1, determine_upsert_action_v2.
  intros H Hx. split_hyp_matches H; try discriminate H.
  all: injection H as <-; simpl in Hx.
  all: try contradiction; try exact Hx;
    try (destruct Hx as [<-|[]]; subst; left; reflexivity).
  all: match goal with
       | E : v2_loop _ _ _ _ _ _ = Some _ |- _ =>
           pose proof (v2_loop_replaced _ _ _ _ _ _ _ E) as Hl
       end; simpl in Hl.
  all: first [rewrite Hl in Hx; contradiction
             | destruct (Hl x Hx) as [[]|Hin]; subst; exact Hin].
Qed.

(** A remote key dropped by a merge is the key of an entry that a decision
    replaced. *)
Lemma dropped_key_name remote garden_version force_entries local A x :
  Forall2 (fun c a => decision_of remote garden_version force_entries c = Some a) local A ->
  key_mem (entry_key x) (flat_map replaced_keys A) = true ->
  In (get_name x) (map get_name local).
Proof.
  intros HF Hk. apply key_mem_sound, in_flat_map in Hk as (a & Ha & Hk).
  unfold replaced_keys in Hk. destruct (action a); try contradiction.
  apply in_map_iff in Hk as (r & Hkr & Hr).
  destruct (Forall2_in_right _ _ _ _ HF Ha) as (c & Hc & Hd).
  unfold decision_of in Hd.
  pose proof (decision_replaced_existing _ _ _ _ _ _ Hd Hr) as Hex.
  apply filter_In in Hex as [_ Hn]. apply String.eqb_eq in Hn.
  rewrite (get_name_of_key x r) by (symmetry; exact Hkr). rewrite Hn.
  apply in_map. exact Hc.
Qed.

Lemma merge_entries_defined local remote garden_version force_entries :
  (forall c, In c local -> decision_of remote garden_version force_entries c <> None) ->
  exists res, merge_entries local remote garden_version force_entries = Some res.
Proof.
  intro Hall.
  destruct (process_local_defined remote garden_version force_entries local [] [] [] Hall)
    as [[[A E] R] Hout].
  unfold merge_entries. rewrite Hout. destruct E; eexists; reflexivity.
Qed.

Lemma filter_is_fail_nil (A : list UpsertResult) :
  (forall a, In a A -> action a <> FAIL) -> filter is_fail A = [].
Proof.
  induction A as [|a A IH]; intro H; simpl; [reflexivity|].
  unfold is_fail at 1. destruct (action a) eqn:Ha.
  - apply IH. intros b Hb. apply H. right. exact Hb.
  - apply IH. intros b Hb. apply H. right. exact Hb.
  - exfalso. apply (H a); [left; reflexivity|exact Ha].
Qed.

(** X5. Merging an empty batch succeeds and returns the remote catalog
    unchanged, with no action. *)
Theorem merge_entries_empty_batch remote garden_version force_entries :
  merge_entries [] remote garden_version force_entries =
  Some (mkMergeResult true remote [] []).
Proof.
  unfold merge_entries. cbn [process_local]. cbv iota zeta beta.
  rewrite filter_keep_all. cbn [filter map]. rewrite app_nil_r. reflexivity.
Qed.

(** X6. When [merge_entries] succeeds, every action is INSERT or REPLACE,
    the merged list is the kept remote entries (in catalog order) followed
    by the whole local batch in batch order, and every remote entry that
    carries a name no candidate carries (a candidate's name read as
    [entry.get("name", "")]) is kept. *)
Theorem merge_entries_success_appends_batch local remote garden_version force_entries res :
  merge_entries local remote garden_version force_entries = Some res ->
  success res = true ->
  Forall (fun a => action a <> FAIL) (actions res) /\
  merged_entries res =
    filter (fun e => negb (key_mem (entry_key e) (flat_map replaced_keys (actions res))))
      remote ++ local /\
  (forall x, In x remote -> e_name x <> None -> ~ In (get_name x) (map get_name local) ->
     In x (merged_entries res)).
Proof.
  intros Hm Hs.
  destruct (merge_entries_result _ _ _ _ _ Hm)
    as (A & HA & HF & [(_ & Hf & _)|(Hnf & _ & _ & Hme)]); [congruence|].
  subst A. destruct (no_fail_filter_all _ Hnf) as [Hall HnfA].
  rewrite Hall, (map_new_entry_local _ _ _ _ _ HF) in Hme.
  split; [exact HnfA|]. split; [exact Hme|].
  intros x Hx _ Hn. rewrite Hme. apply in_or_app. left. apply filter_In. split; [exact Hx|].
  destruct (key_mem (entry_key x) (flat_map replaced_keys (actions res))) eqn:Hk;
    [|reflexivity].
  exfalso. apply Hn. eapply dropped_key_name; eassumption.
Qed.

Definition e_tool : Entry := mkEntry (Some "tool") (Some "0.1.0") None [].

Lemma merge_entries_success_appends_batch_witness :
  merge_entries [e_app_v1_1] [e_app_v1_0; e_tool] "v1" [] =
    Some (mkMergeResult true [e_tool; e_app_v1_1]
            [mkUpsertResult "app" REPLACE (M_version_upgrade "1.0.0" "1.1.0") e_app_v1_1
               [e_app_v1_0] None] []) /\
  In e_tool [e_tool; e_app_v1_1].
Proof.
  assert (Hm : merge_entries [e_app_v1_1] [e_app_v1_0; e_tool] "v1" [] =
    Some (mkMergeResult true [e_tool; e_app_v1_1]
            [mkUpsertResult "app" REPLACE (M_version_upgrade "1.0.0" "1.1.0") e_app_v1_1
               [e_app_v1_0] None] [])) by (vm_compute; reflexivity).
  split; [exact Hm|].
  destruct (merge_entries_success_appends_batch _ _ _ _ _ Hm eq_refl) as (_ & _ & Hkeep).
  apply (Hkeep e_tool); [right; left; reflexivity|discriminate|].
  simpl. intros [H|[]]. discriminate H.
Defined.

(** X7. A batch whose candidates all carry a name listed in the force set
    always merges successfully, in any format: the merged list is the remote
    entries whose name no candidate carries, in catalog order, followed by
    the batch; every remote entry of a forced name is dropped. *)
Theorem merge_entries_forced_batch local remote garden_version force_entries :
  (forall c, In c local -> e_name c <> None /\ str_mem (get_name c) force_entries = true) ->
  exists res, merge_entries local remote garden_version force_entries = Some res /\
    success res = true /\
    merged_entries res =
      filter (fun e => negb (str_mem (get_name e) (map get_name local))) remote ++ local.
Proof.
  intro Hall.
  assert (Hd : forall c, In c local ->
            decision_of remote garden_version force_entries c =
            determine_upsert_action_forced c (remote_by_name remote (get_name c))).
  { intros c Hc. unfold decision_of, determine_upsert_action.
    rewrite (proj2 (Hall c Hc)). reflexivity. }
  assert (Hdef : forall c, In c local -> decision_of remote garden_version force_entries c <> None).
  { intros c Hc. rewrite (Hd c Hc). unfold determine_upsert_action_forced.
    destruct (e_name c) as [n|] eqn:Hn; [|exfalso; exact (proj1 (Hall c Hc) Hn)].
    destruct (remote_by_name remote (get_name c)); discriminate. }
  destruct (merge_entries_defined _ _ _ _ Hdef) as [res Hres].
  exists res. split; [exact Hres|].
  destruct (merge_entries_result _ _ _ _ _ Hres) as (A & HA & HF & Hcase).
  assert (Hnf : forall a, In a A -> action a <> FAIL).
  { intros a Ha. destruct (Forall2_in_right _ _ _ _ HF Ha) as (c & Hc & Hca).
    rewrite (Hd c Hc) in Hca. unfold determine_upsert_action_forced in Hca.
    destruct (e_name c); [|discriminate Hca].
    destruct (remote_by_name remote (get_name c)); injection Hca as <-; discriminate. }
  pose proof (filter_is_fail_nil A Hnf) as Hnil.
  destruct Hcase as [(Hf & _)|(_ & Hs & _ & Hme)]; [contradiction|].
  split; [exact Hs|]. rewrite Hme.
  destruct (no_fail_filter_all _ Hnil) as [Hio _].
  rewrite Hio, (map_new_entry_local _ _ _ _ _ HF). f_equal.
  apply filter_ext_in. intros x Hx. f_equal.
  destruct (key_mem (entry_key x) (flat_map replaced_keys A)) eqn:Hk.
  - symmetry. apply str_mem_In. eapply dropped_key_name; eassumption.
  - destruct (str_mem (get_name x) (map get_name local)) eqn:Hs'; [|reflexivity].
    apply str_mem_In, in_map_iff in Hs' as (c & Hcx & Hc).
    destruct (Forall2_in_left _ _ _ _ HF Hc) as (a & Ha & Hca).
    assert (Hxin : In x (remote_by_name remote (get_name c))).
    { apply filter_In. split; [exact Hx|]. rewrite Hcx. apply String.eqb_refl. }
    rewrite (Hd c Hc) in Hca. unfold determine_upsert_action_forced in Hca.
    destruct (e_name c); [|discriminate Hca].
    destruct (remote_by_name remote (get_name c)) as [|y ys] eqn:Hrb; [destruct Hxin|].
    injection Hca as <-.
    rewrite key_mem_In in Hk; [discriminate Hk|].
    apply in_flat_map. eexists. split; [exact Ha|]. unfold replaced_keys. cbn [action replaced_entries]. apply in_map. exact Hxin.
Qed.

Lemma merge_entries_forced_batch_witness :
  exists res, merge_entries [e_app_v1_0] [e_app_v1_1; e_tool] "v1" ["app"] = Some res /\
    success res = true /\
    merged_entries res =
      filter (fun e => negb (str_mem (get_name e) (map get_name [e_app_v1_0])))
        [e_app_v1_1; e_tool] ++ [e_app_v1_0].
Proof.
  apply merge_entries_forced_batch.
  intros c [<-|[]]. split; [discriminate|reflexivity].
Defined.

(** A candidate with a name and a version (and, outside format v1, a
    non-empty [kamiwaza_version]) is inserted when nothing of its name
    exists. *)
Lemma decision_no_existing_insert c garden_version force_entries :
  e_name c <> None -> e_version c <> None ->
  (is_v1_format garden_version = false -> truthy (e_kamiwaza_version c) = true) ->
  exists r, determine_upsert_action c [] garden_version force_entries = Some r /\
    action r = INSERT.
Proof.
  intros Hn Hv Hk. unfold determine_upsert_action, determine_upsert_action_forced,
    determine_upsert_action_v1, determine_upsert_action_v2.
  destruct (e_name c) as [n|]; [|congruence].
  destruct (e_version c) as [v|]; [|congruence].
  destruct (str_mem (get_name c) force_entries); [eexists; split; reflexivity|].
  destruct (is_v1_format garden_version); [eexists; split; reflexivity|].
  specialize (Hk eq_refl). destruct (e_kamiwaza_version c) as [kv|]; [|discriminate Hk].
  rewrite Hk. simpl. eexists; split; reflexivity.
Qed.

Lemma merge_into_empty_remote local garden_version force_entries :
  (forall c, In c local -> e_name c <> None /\ e_version c <> None /\
     (is_v1_format garden_version = false -> truthy (e_kamiwaza_version c) = true)) ->
  exists res, merge_entries local [] garden_version force_entries = Some res /\
    success res = true /\ merged_entries res = local /\
    Forall (fun a => action a = INSERT) (actions res).
Proof.
  intro Hall.
  assert (Hdec : forall c, In c local -> exists r,
            decision_of [] garden_version force_entries c = Some r /\ action r = INSERT).
  { intros c Hc. destruct (Hall c Hc) as (Hn & Hv & Hk).
    apply decision_no_existing_insert; assumption. }
  assert (Hdef : forall c, In c local -> decision_of [] garden_version force_entries c <> None).
  { intros c Hc. destruct (Hdec c Hc) as (r & Hr & _). rewrite Hr. discriminate. }
  destruct (merge_entries_defined _ _ _ _ Hdef) as [res Hres].
  exists res. split; [exact Hres|].
  destruct (merge_entries_result _ _ _ _ _ Hres) as (A & HA & HF & Hcase).
  assert (Hins : forall a, In a A -> action a = INSERT).
  { intros a Ha. destruct (Forall2_in_right _ _ _ _ HF Ha) as (c & Hc & Hca).
    destruct (Hdec c Hc) as (r & Hr & Hi). congruence. }
  assert (Hnil : filter is_fail A = [])
    by (apply filter_is_fail_nil; intros a Ha; rewrite (Hins a Ha); discriminate).
  destruct Hcase as [(Hf & _)|(_ & Hs & _ & Hme)]; [contradiction|].
  split; [exact Hs|]. split.
  - rewrite Hme. destruct (no_fail_filter_all _ Hnil) as [Hio _].
    rewrite Hio, (map_new_entry_local _ _ _ _ _ HF). reflexivity.
  - rewrite HA. apply Forall_forall. exact Hins.
Qed.

(** X8. Against an empty remote catalog (a first publish), a batch whose
    candidates carry a name and a version, and outside format v1 a non-empty
    [kamiwaza_version], merges successfully: every action is INSERT and the
    merged list is the batch itself (also when candidates share a name). *)
Theorem merge_entries_into_empty_remote local garden_version force_entries :
  (forall c, In c local -> e_name c <> None /\ e_version c <> None /\
     (is_v1_format garden_version = false -> truthy (e_kamiwaza_version c) = true)) ->
  exists res, merge_entries local [] garden_version force_entries = Some res /\
    success res = true /\ merged_entries res = local /\
    Forall (fun a => action a = INSERT) (actions res).
Proof. apply merge_into_empty_remote. Qed.

Lemma merge_entries_into_empty_remote_witness :
  exists res, merge_entries [e_app_disj_new; e_app2_new] [] "v2" [] = Some res /\
    success res = true /\ merged_entries res = [e_app_disj_new; e_app2_new] /\
    Forall (fun a => action a = INSERT) (actions res).
Proof.
  apply merge_entries_into_empty_remote.
  intros c [<-|[<-|[]]]; (split; [discriminate|split; [discriminate|reflexivity]]).
Defined.

(** ** [merge_registries] on a first publish *)

Lemma validate_local_registry_entries local_garden garden_dir garden_version :
  validate_local_registry local_garden garden_dir garden_version = true ->
  forall e, In e (load_registry_json (local_garden (garden_dir ++ "/apps.json")%string)
                  ++ load_registry_json (local_garden (garden_dir ++ "/tools.json")%string)) ->
  validate_entry e garden_version = true.
Proof.
  unfold validate_local_registry. intros H e He.
  destruct (local_garden (garden_dir ++ "/apps.json")%string),
           (local_garden (garden_dir ++ "/tools.json")%string);
    try discriminate H; apply forallb_forall with (x := e) in H; assumption.
Qed.

Lemma validate_entry_fields e garden_version :
  validate_entry e garden_version = true ->
  is_v1_format garden_version = true \/ garden_version = "v2" ->
  e_name e <> None /\ e_version e <> None /\
  (is_v1_format garden_version = false -> truthy (e_kamiwaza_version e) = true).
Proof.
  unfold validate_entry. intros H Hg.
  destruct (e_name e); [|discriminate H]. destruct (e_version e); [|discriminate H].
  split; [discriminate|split; [discriminate|]]. intro Hv1.
  destruct Hg as [Hg | ->]; [congruence|].
  apply andb_prop in H as [_ H]. simpl in H.
  destruct (e_kamiwaza_version e) as [kv|]; [|discriminate H].
  apply andb_prop in H as [H _]. exact H.
Qed.

(** X9. A first publish: when the local registry passes
    [validate_local_registry] for format v1 (or [default]) or v2, merging it
    into an empty remote registry succeeds; the output [apps.json] and
    [tools.json] are the local catalogs as they are, and every image file
    of the output is the local one. *)
Theorem merge_registries_first_publish local garden_version force_entries :
  is_v1_format garden_version = true \/ garden_version = "v2" ->
  validate_local_registry local (get_garden_dir garden_version) garden_version = true ->
  exists apps_result tools_result output,
    merge_registries local empty_dir garden_version force_entries =
      Some (true, apps_result, tools_result, output) /\
    output "apps.json" = Some (Catalog (load_registry_json
                              (local (get_garden_dir garden_version ++ "/apps.json")%string))) /\
    output "tools.json" = Some (Catalog (load_registry_json
                              (local (get_garden_dir garden_version ++ "/tools.json")%string))) /\
    (forall r rest,
       strip_prefix ((if String.eqb garden_version "v2" then "images" else "app-garden-images")
                     ++ "/")%string r = Some rest ->
       r <> "apps.json" -> r <> "tools.json" ->
       output r = local (get_garden_dir garden_version ++ "/" ++ r)%string).
Proof.
  intros Hg Hv.
  pose proof (validate_local_registry_entries _ _ _ Hv) as He.
  set (gd := get_garden_dir garden_version) in *.
  assert (Hok : forall l, (forall e, In e l -> validate_entry e garden_version = true) ->
            forall c, In c l -> e_name c <> None /\ e_version c <> None /\
            (is_v1_format garden_version = false -> truthy (e_kamiwaza_version c) = true)).
  { intros l Hl c Hc. apply validate_entry_fields; [apply Hl; exact Hc|exact Hg]. }
  destruct (merge_into_empty_remote
              (load_registry_json (local (gd ++ "/apps.json")%string)) garden_version
              force_entries) as (ar & Har & Hsa & Hma & _).
  { apply Hok. intros e Hin. apply He, in_or_app. left. exact Hin. }
  destruct (merge_into_empty_remote
              (load_registry_json (local (gd ++ "/tools.json")%string)) garden_version
              force_entries) as (tr & Htr & Hst & Hmt & _).
  { apply Hok. intros e Hin. apply He, in_or_app. right. exact Hin. }
  unfold merge_registries. fold gd. cbn [empty_dir load_registry_json].
  rewrite Har, Htr, Hsa, Hst. cbn [andb].
  eexists ar, tr, _. split; [reflexivity|].
  rewrite Hma, Hmt. split; [reflexivity|]. split; [reflexivity|].
  intros r rest Hr Ha Ht.
  apply String.eqb_neq in Ha, Ht. rewrite Ha, Ht, Hr. reflexivity.
Qed.

Definition local_first : Dir :=
  fun r => if String.eqb r "v2/apps.json" then Some (Catalog [e_app_disj_new])
           else if String.eqb r "v2/images/app.png" then Some (Bytes "png")
           else None.

Lemma merge_registries_first_publish_witness :
  exists apps_result tools_result output,
    merge_registries local_first empty_dir "v2" [] =
      Some (true, apps_result, tools_result, output) /\
    output "apps.json" = Some (Catalog (load_registry_json
                              (local_first (get_garden_dir "v2" ++ "/apps.json")%string))) /\
    output "tools.json" = Some (Catalog (load_registry_json
                              (local_first (get_garden_dir "v2" ++ "/tools.json")%string))) /\
    (forall r rest,
       strip_prefix ((if String.eqb "v2" "v2" then "images" else "app-garden-images")
                     ++ "/")%string r = Some rest ->
       r <> "apps.json" -> r <> "tools.json" ->
       output r = local_first (get_garden_dir "v2" ++ "/" ++ r)%string).
Proof.
  apply merge_registries_first_publish; [right; reflexivity|vm_compute; reflexivity].
Defined.

(** ** Paths, the lock key and the stage configuration ([s3_operations.py]) *)

(** [path.lstrip("/")]. *)
Fixpoint lstrip_slash (s : string) : string :=
  match s with
  | String c s' => if Ascii.eqb c "/"%char then lstrip_slash s' else s
  | EmptyString => EmptyString
  end.

(** [s3_path(bucket, path)]. *)
Definition s3_path (bucket path : string) : string :=
  "s3://" ++ bucket ++ "/" ++ lstrip_slash path.

(** The process environment [os.environ]. *)
Definition Environ : Type := string -> option string.

(** [os.environ[k] = v]. *)
Definition set_env (k v : string) (environ : Environ) : Environ :=
  fun k' => if String.eqb k' k then Some v else environ k'.

(** [os.getenv("KAMIWAZA_REGISTRY_LOCK_NAME", "registry.lock")]. *)
Definition lock_name_of (environ : Environ) : string :=
  match environ "KAMIWAZA_REGISTRY_LOCK_NAME" with Some n => n | None => "registry.lock" end.

(** [lock_s3_path(bucket, garden_dir)]; [if garden_dir:] is false for
    [None] and for the empty string. *)
Definition lock_s3_path (environ : Environ) (bucket : string) (garden_dir : option string)
  : string :=
  let lock_name := lock_name_of environ in
  if truthy garden_dir then
    s3_path bucket ("garden/" ++ match garden_dir with Some g => g | None => "" end
                    ++ "/" ++ lock_name)
  else s3_path bucket lock_name.

(** [s.replace("", new)]: [new] before every character and at the end. *)
Fixpoint interleave (new s : string) : string :=
  match s with
  | EmptyString => new
  | String c s' => new ++ String c (interleave new s')
  end.

(** The left-to-right scan of [str.replace] for a non-empty [old]: every
    non-overlapping occurrence is replaced.  [fuel] bounds the number of
    characters consumed. *)
Fixpoint replace_scan (fuel : nat) (old new s : string) : string :=
  match fuel with
  | O => s
  | S fuel' =>
      match s with
      | EmptyString => EmptyString
      | String c s' =>
          if String.prefix old s then
            new ++ replace_scan fuel' old new
                     (substring (String.length old) (String.length s - String.length old) s)
          else String c (replace_scan fuel' old new s')
      end
  end.

(** [s.replace(old, new)]. *)
Definition str_replace (old new s : string) : string :=
  if String.eqb old "" then interleave new s
  else replace_scan (String.length s) old new s.

(** [lock_path.replace(f"s3://{bucket}/", "")] in [acquire_lock]: the key
    the lock object is written to. *)
Definition lock_put_key (environ : Environ) (bucket : string) (garden_dir : option string)
  : string :=
  str_replace ("s3://" ++ bucket ++ "/") "" (lock_s3_path environ bucket garden_dir).

(** [str.upper] on ASCII characters. *)
Definition ascii_upper (c : ascii) : ascii :=
  let n := nat_of_ascii c in
  if (97 <=? n) && (n <=? 122) then ascii_of_nat (n - 32) else c.

Fixpoint str_upper (s : string) : string :=
  match s with
  | EmptyString => EmptyString
  | String c s' => String (ascii_upper c) (str_upper s')
  end.

(** The [ValueError]s of the stage configuration. *)
Inductive ConfigError :=
| ProfileNotSet (stage : string)
| NoBucketConfigured (stage : string).

(** [configure_aws_profile(stage)]: the environment after the call and the
    profile or the error raised. *)
Definition configure_aws_profile (environ : Environ) (stage : string)
  : Environ * (string + ConfigError) :=
  let stage_upper := str_upper stage in
  let stage_profile := environ ("AWS_PROFILE_" ++ stage_upper)%string in
  if negb (truthy stage_profile) then (environ, inr (ProfileNotSet stage))
  else
    let p := match stage_profile with Some p => p | None => "" end in
    (set_env "AWS_PROFILE" p environ, inl p).

(** [get_bucket_for_stage(stage)]. *)
Definition get_bucket_for_stage (environ : Environ) (stage : string)
  : Environ * (string + ConfigError) :=
  let '(environ1, r) := configure_aws_profile environ stage in
  match r with
  | inr e => (environ1, inr e)
  | inl _ =>
      let stage_upper := str_upper stage in
      let bucket := environ1 ("KAMIWAZA_REGISTRY_BUCKET_" ++ stage_upper)%string in
      let bucket := if truthy bucket then bucket
                    else environ1 "KAMIWAZA_REGISTRY_BUCKET" in
      if truthy bucket then
        (environ1, inl (match bucket with Some b => b | None => "" end))
      else (environ1, inr (NoBucketConfigured stage))
  end.

Lemma prefix_app_self p r : String.prefix p (p ++ r) = true.
Proof.
  induction p as [|c p IH]; simpl; [destruct r; reflexivity|].
  destruct (ascii_dec c c) as [_|Hn]; [exact IH|contradiction (Hn eq_refl)].
Qed.

Lemma substring_full r : substring 0 (String.length r) r = r.
Proof. induction r as [|c r IH]; simpl; [reflexivity|rewrite IH; reflexivity]. Qed.

Lemma str_length_app p r :
  String.length (p ++ r) = String.length p + String.length r.
Proof. induction p as [|c p IH]; simpl; [reflexivity|rewrite IH; reflexivity]. Qed.

Lemma substring_app_drop p r :
  substring (String.length p) (String.length (p ++ r) - String.length p) (p ++ r) = r.
Proof.
  rewrite str_length_app. replace (String.length p + String.length r - String.length p)
    with (String.length r) by lia.
  induction p as [|c p IH]; simpl; [apply substring_full|exact IH].
Qed.

Lemma str_contains_cons needle c s :
  str_contains needle (String c s) = false ->
  String.prefix needle (String c s) = false /\ str_contains needle s = false.
Proof. simpl. intro H. apply orb_false_elim in H. exact H. Qed.

Lemma replace_scan_absent fuel old new s :
  str_contains old s = false -> replace_scan fuel old new s = s.
Proof.
  revert s. induction fuel as [|f IH]; intros s H; [reflexivity|].
  destruct s as [|c s]; [reflexivity|]. simpl.
  destruct (str_contains_cons _ _ _ H) as [Hp Hs].
  simpl in Hp. rewrite Hp, IH by exact Hs. reflexivity.
Qed.

Lemma replace_scan_leading f pat new rest :
  pat <> EmptyString -> str_contains pat rest = false ->
  replace_scan (S f) pat new (pat ++ rest) = (new ++ rest)%string.
Proof.
  intros Hp Hc. destruct pat as [|c p]; [contradiction|].
  change (String c p ++ rest)%string with (String c (p ++ rest)).
  cbn [replace_scan].
  change (String c (p ++ rest)) with (String c p ++ rest)%string.
  rewrite prefix_app_self, substring_app_drop, replace_scan_absent by exact Hc.
  reflexivity.
Qed.

Lemma lstrip_slash_garden r : lstrip_slash ("garden/" ++ r) = ("garden/" ++ r)%string.
Proof. reflexivity. Qed.

(** X10. For a non-empty garden directory, the lock path is the prefix
    that [download_registry] and [upload_registry] sync followed by the lock
    name, and the key [acquire_lock] writes the lock object to is
    [garden/<garden_dir>/<lock name>] (the key [check_lock_exists] and
    [release_lock] look at), provided the rest of the path does not contain
    [s3://<bucket>/] again. *)
Theorem lock_path_under_sync_prefix environ bucket garden_dir :
  garden_dir <> "" ->
  str_contains ("s3://" ++ bucket ++ "/")
    ("garden/" ++ garden_dir ++ "/" ++ lock_name_of environ) = false ->
  lock_s3_path environ bucket (Some garden_dir) =
    (s3_path bucket ("garden/" ++ garden_dir ++ "/") ++ lock_name_of environ)%string /\
  lock_put_key environ bucket (Some garden_dir) = lock_key (lock_name_of environ) garden_dir.
Proof.
  intros Hg Hc.
  assert (Ht : truthy (Some garden_dir) = true).
  { simpl. apply String.eqb_neq in Hg. rewrite Hg. reflexivity. }
  unfold lock_put_key, lock_s3_path. rewrite Ht.
  unfold s3_path. rewrite !lstrip_slash_garden. split.
  - rewrite <- !str_app_assoc. reflexivity.
  - unfold str_replace.
    destruct (String.eqb ("s3://" ++ bucket ++ "/") "") eqn:He;
      [apply String.eqb_eq in He; discriminate He|].
    set (pat := ("s3://" ++ bucket ++ "/")%string).
    set (rest := ("garden/" ++ garden_dir ++ "/" ++ lock_name_of environ)%string).
    replace ("s3://" ++ bucket ++ "/" ++ rest)%string with (pat ++ rest)%string
      by (unfold pat; rewrite <- !str_app_assoc; reflexivity).
    destruct (String.length (pat ++ rest)) as [|f] eqn:HL.
    { unfold pat in HL. discriminate HL. }
    rewrite replace_scan_leading by (unfold pat; discriminate || exact Hc). reflexivity.
Qed.

Lemma lock_path_under_sync_prefix_witness :
  ("v2" <> "" /\
   str_contains ("s3://" ++ "reg" ++ "/")
     ("garden/" ++ "v2" ++ "/" ++ lock_name_of (fun _ => None)) = false) /\
  lock_s3_path (fun _ => None) "reg" (Some "v2") =
    (s3_path "reg" ("garden/" ++ "v2" ++ "/") ++ lock_name_of (fun _ => None))%string /\
  lock_put_key (fun _ => None) "reg" (Some "v2") = lock_key (lock_name_of (fun _ => None)) "v2".
Proof.
  assert (H : "v2" <> "" /\
    str_contains ("s3://" ++ "reg" ++ "/")
      ("garden/" ++ "v2" ++ "/" ++ lock_name_of (fun _ => None)) = false)
    by (split; [discriminate|vm_compute; reflexivity]).
  split; [exact H|]. exact (lock_path_under_sync_prefix _ _ _ (proj1 H) (proj2 H)).
Defined.

(** X11. [get_bucket_for_stage] fails with the profile error, leaving the
    environment unchanged, when [AWS_PROFILE_<STAGE>] is unset or empty,
    whatever buckets are configured.  Otherwise it sets [AWS_PROFILE] to
    that profile even when it then fails for want of a bucket; on success
    the bucket is non-empty and is [KAMIWAZA_REGISTRY_BUCKET_<STAGE>] when
    that is set and non-empty. *)
Theorem get_bucket_for_stage_outcomes environ stage :
  let stage_upper := str_upper stage in
  (truthy (environ ("AWS_PROFILE_" ++ stage_upper)%string) = false ->
   get_bucket_for_stage environ stage = (environ, inr (ProfileNotSet stage))) /\
  (truthy (environ ("AWS_PROFILE_" ++ stage_upper)%string) = true ->
   forall environ' r, get_bucket_for_stage environ stage = (environ', r) ->
   environ' "AWS_PROFILE" = environ ("AWS_PROFILE_" ++ stage_upper)%string /\
   (forall k, k <> "AWS_PROFILE" -> environ' k = environ k) /\
   match r with
   | inl b => b <> "" /\
       (truthy (environ ("KAMIWAZA_REGISTRY_BUCKET_" ++ stage_upper)%string) = true ->
        Some b = environ ("KAMIWAZA_REGISTRY_BUCKET_" ++ stage_upper)%string)
   | inr e => e = NoBucketConfigured stage
   end).
Proof.
  intro su. split.
  - intro H. unfold get_bucket_for_stage, configure_aws_profile. fold su.
    rewrite H. reflexivity.
  - intros H environ' r Hr. unfold get_bucket_for_stage, configure_aws_profile in Hr.
    fold su in Hr. rewrite H in Hr. cbn [negb] in Hr.
    destruct (environ ("AWS_PROFILE_" ++ su)%string) as [p|] eqn:Hp; [|discriminate H].
    assert (Hb : forall k, k <> "AWS_PROFILE" -> set_env "AWS_PROFILE" p environ k = environ k).
    { intros k Hk. unfold set_env. apply String.eqb_neq in Hk. rewrite Hk. reflexivity. }
    rewrite !Hb in Hr by discriminate.
    destruct (truthy (environ ("KAMIWAZA_REGISTRY_BUCKET_" ++ su)%string)) eqn:Hs;
    [destruct (environ ("KAMIWAZA_REGISTRY_BUCKET_" ++ su)%string) as [b|] eqn:Hsb;
       [|discriminate Hs]
    |destruct (truthy (environ "KAMIWAZA_REGISTRY_BUCKET")) eqn:Hg;
       [destruct (environ "KAMIWAZA_REGISTRY_BUCKET") as [b|] eqn:Hgb; [|discriminate Hg]|]];
    cbn [truthy] in *; try rewrite Hs in Hr; try rewrite Hg in Hr;
    injection Hr as <- <-;
    (split; [unfold set_env; rewrite String.eqb_refl; reflexivity|split; [exact Hb|]]);
    try reflexivity;
    (split; [intro Hbe; subst b; discriminate|]); try (intro; reflexivity);
    intro Hf; discriminate Hf.
Qed.

(** ** The publish workflow, further *)

Lemma list_eqb_sound {A} (eqb : A -> A -> bool) :
  (forall a b, eqb a b = true -> a = b) ->
  forall l1 l2, list_eqb eqb l1 l2 = true -> l1 = l2.
Proof.
  intros Heq l1. induction l1 as [|a l1 IH]; intros [|b l2] H; simpl in H;
    try discriminate H; [reflexivity|].
  apply andb_prop in H as [Hab Hl]. f_equal; [apply Heq; exact Hab|apply IH; exact Hl].
Qed.

Lemma entry_eqb_sound a b : entry_eqb a b = true -> a = b.
Proof.
  destruct a as [n1 v1 k1 p1], b as [n2 v2 k2 p2]. unfold entry_eqb. cbn.
  intro H. apply andb_prop in H as [H Hp]. apply andb_prop in H as [H Hk].
  apply andb_prop in H as [Hn Hv].
  apply opt_str_eqb_sound in Hn, Hv, Hk.
  apply (list_eqb_sound _) in Hp; [subst; reflexivity|].
  intros [x1 y1] [x2 y2] Hxy. apply andb_prop in Hxy as [Hx Hy]. cbn in Hx, Hy.
  apply String.eqb_eq in Hx, Hy. subst. reflexivity.
Qed.

Lemma content_eqb_sound a b : content_eqb a b = true -> a = b.
Proof.
  destruct a as [l1|s1], b as [l2|s2]; cbn; intro H; try discriminate H.
  - f_equal. exact (list_eqb_sound _ entry_eqb_sound _ _ H).
  - apply String.eqb_eq in H. subst. reflexivity.
Qed.

(** A passed verification: each catalog of the uploaded tree is on the
    remote store under the prefix. *)
Lemma verified_catalog out st p f c :
  verify_files out (sync_down st p empty_dir) = true ->
  f = "apps.json" \/ f = "tools.json" -> out f = Some c -> st (p ++ f)%string = Some c.
Proof.
  unfold verify_files. cbn [forallb]. intros H Hf Hc.
  rewrite andb_true_r in H. apply andb_prop in H as [Ha Ht].
  unfold sync_down, empty_dir in *.
  destruct Hf as [->| ->]; [clear Ht; rename Ha into H|clear Ha; rename Ht into H];
    rewrite Hc in H; destruct (st (p ++ _)%string) as [c'|];
    try discriminate H; apply content_eqb_sound in H; subst; reflexivity.
Qed.

Lemma merge_registries_catalogs local remote gv fe ar tr out :
  merge_registries local remote gv fe = Some (true, ar, tr, out) ->
  out "apps.json" = Some (Catalog (merged_entries ar)) /\
  out "tools.json" = Some (Catalog (merged_entries tr)).
Proof.
  unfold merge_registries.
  destruct (merge_entries _ _ _ _) as [a|]; [|discriminate].
  destruct (merge_entries _ _ _ _) as [t|]; [|discriminate].
  intro H. injection H as Hok <- <- <-. rewrite Hok. split; reflexivity.
Qed.

(** X12. A live run that exits with 0 merged the local registry against the tree downloaded after the lock was
    written, successfully, and leaves the remote [apps.json] and
    [tools.json] equal to the merged catalogs, whatever other parties wrote
    between the upload and the verification: the verification compares
    both files. *)
Theorem live_success_publishes_merge (env : Env) (args : Args) (w0 : World) :
  let gd := get_garden_dir (a_repo_version args) in
  let lk := lock_key (env_lock_name env) gd in
  a_dry_run args = false ->
  let (w, code) := run env args w0 in
  code = 0 ->
  exists apps_result tools_result out,
    merge_registries (a_local_registry args)
      (sync_result env gd (put_object lk (Bytes (env_lock_content env)) (w_remote w0))
         (w_working w0))
      (a_repo_version args) (force_entries_of (a_force_name args)) =
      Some (true, apps_result, tools_result, out) /\
    w_remote w (garden_prefix gd ++ "apps.json")%string =
      Some (Catalog (merged_entries apps_result)) /\
    w_remote w (garden_prefix gd ++ "tools.json")%string =
      Some (Catalog (merged_entries tools_result)).
Proof.
  intros gd lk Hd. unfold run, main. fold gd. rewrite Hd.
  unfold_workflow. split_workflow.
  all: intro Hcode; try discriminate Hcode.
  all: repeat match goal with
         | H : negb _ = true |- _ => apply negb_true_iff in H
         | H : negb _ = false |- _ => apply negb_false_iff in H
         end.
  all: match goal with
       | E : merge_registries _ _ _ _ = Some (?b, ?ar, ?tr, ?out), Hb : ?b = true |- _ =>
           subst b; exists ar, tr, out; split; [exact E|];
           destruct (merge_registries_catalogs _ _ _ _ _ _ _ E) as [Ha Ht]
       end.
  all: match goal with
       | V : verify_files _ (sync_down _ _ empty_dir) = true |- _ =>
           pose proof (verified_catalog _ _ _ _ _ V (or_introl eq_refl) Ha) as Va;
           pose proof (verified_catalog _ _ _ _ _ V (or_intror eq_refl) Ht) as Vt
       end.
  all: rewrite ?rm_object_other
         by (apply lock_key_not_catalog;
             [eapply check_lock_exists_contains; eassumption
             |first [left; reflexivity|right; reflexivity]]).
  all: split; assumption.
Qed.

Lemma live_success_publishes_merge_witness :
  snd (run env_ok args_publish (fresh_world remote_start)) = 0 /\
  let gd := get_garden_dir (a_repo_version args_publish) in
  let lk := lock_key (env_lock_name env_ok) gd in
  let (w, code) := run env_ok args_publish (fresh_world remote_start) in
  code = 0 ->
  exists apps_result tools_result out,
    merge_registries (a_local_registry args_publish)
      (sync_result env_ok gd (put_object lk (Bytes (env_lock_content env_ok))
                                (w_remote (fresh_world remote_start)))
         (w_working (fresh_world remote_start)))
      (a_repo_version args_publish) (force_entries_of (a_force_name args_publish)) =
      Some (true, apps_result, tools_result, out) /\
    w_remote w (garden_prefix gd ++ "apps.json")%string =
      Some (Catalog (merged_entries apps_result)) /\
    w_remote w (garden_prefix gd ++ "tools.json")%string =
      Some (Catalog (merged_entries tools_result)).
Proof.
  split; [vm_compute; reflexivity|].
  apply (live_success_publishes_merge env_ok args_publish (fresh_world remote_start)).
  reflexivity.
Defined.

Definition images_dir_of (repo_version : string) : string :=
  if String.eqb repo_version "v2" then "images" else "app-garden-images".

Lemma image_path_not_catalog gv r :
  strip_prefix (images_dir_of gv ++ "/") r <> None -> r <> "apps.json" /\ r <> "tools.json".
Proof.
  unfold images_dir_of. intro H.
  split; intros ->; destruct (String.eqb gv "v2"); apply H; reflexivity.
Qed.

(** A successful merge copies an image file of the remote tree into the
    output. *)
Lemma merge_registries_image_from_remote local remote gv fe ar tr out r c :
  merge_registries local remote gv fe = Some (true, ar, tr, out) ->
  strip_prefix (images_dir_of gv ++ "/") r <> None -> remote r = Some c -> out r = Some c.
Proof.
  intros H Hi Hr. destruct (image_path_not_catalog _ _ Hi) as [Ha Ht].
  unfold merge_registries in H.
  destruct (merge_entries _ _ _ _) as [a|]; [|discriminate H].
  destruct (merge_entries _ _ _ _) as [t|]; [|discriminate H].
  injection H as Hok _ _ <-. rewrite Hok.
  apply String.eqb_neq in Ha, Ht. rewrite Ha, Ht.
  unfold images_dir_of in Hi. destruct (strip_prefix _ r); [|contradiction].
  unfold copytree. rewrite Hr. reflexivity.
Qed.

(** X13. A live run downloads into the persistent directory
    [build/registry-backups/remote/<garden_dir>] without deleting what
    earlier runs left there, and its upload publishes every image file of
    the tree so obtained: in a run that exits with 0, the upload writes each
    image file of the downloaded tree to the remote garden, also one that an
    earlier run left in the directory and that is absent from the remote. *)
Theorem live_publishes_stale_download_files (env : Env) (args : Args) (w0 : World) :
  let gd := get_garden_dir (a_repo_version args) in
  let lk := lock_key (env_lock_name env) gd in
  let downloaded := sync_result env gd (put_object lk (Bytes (env_lock_content env)) (w_remote w0))
                      (w_working w0) in
  a_dry_run args = false ->
  let (w, code) := run env args w0 in
  code = 0 ->
  exists st, In (RemoteWrite OpUpload st) (w_log w) /\
    forall r c, strip_prefix (images_dir_of (a_repo_version args) ++ "/") r <> None ->
      downloaded r = Some c -> st (garden_prefix gd ++ r)%string = Some c.
Proof.
  intros gd lk dl Hd. unfold dl, lk. clear dl lk.
  unfold run, main. fold gd. rewrite Hd.
  unfold_workflow. split_workflow.
  all: intro Hcode; try discriminate Hcode.
  all: repeat match goal with
         | H : negb _ = true |- _ => apply negb_true_iff in H
         | H : negb _ = false |- _ => apply negb_false_iff in H
         end.
  all: eexists; split;
         [rewrite <- ?app_assoc; apply in_or_app; right; cbn [app In];
          repeat first [left; reflexivity | right]
         |intros r c Hi Hr; rewrite sync_up_delete_at].
  all: match goal with
       | E : merge_registries _ _ _ _ = Some (?b, _, _, _), Hb : ?b = true |- _ =>
           subst b; exact (merge_registries_image_from_remote _ _ _ _ _ _ _ _ _ E Hi Hr)
       end.
Qed.

Definition world_stale : World :=
  mkWorld remote_start
    (fun r => if String.eqb r "images/old.png" then Some (Bytes "old") else None)
    empty_dir None false false [].

Lemma live_publishes_stale_download_files_witness :
  snd (run env_ok args_publish world_stale) = 0 /\
  let gd := get_garden_dir (a_repo_version args_publish) in
  let lk := lock_key (env_lock_name env_ok) gd in
  let downloaded := sync_result env_ok gd
                      (put_object lk (Bytes (env_lock_content env_ok)) (w_remote world_stale))
                      (w_working world_stale) in
  downloaded "images/old.png" = Some (Bytes "old") /\
  let (w, code) := run env_ok args_publish world_stale in
  code = 0 ->
  exists st, In (RemoteWrite OpUpload st) (w_log w) /\
    forall r c, strip_prefix (images_dir_of (a_repo_version args_publish) ++ "/") r <> None ->
      downloaded r = Some c -> st (garden_prefix gd ++ r)%string = Some c.
Proof.
  split; [vm_compute; reflexivity|].
  split; [vm_compute; reflexivity|].
  apply (live_publishes_stale_download_files env_ok args_publish world_stale).
  reflexivity.
Defined.

(** The first remote write of a history, if any. *)
Fixpoint first_remote_write (log : list Event) : option Event :=
  match log with
  | [] => None
  | RemoteWrite op st :: _ => Some (RemoteWrite op st)
  | Printed _ :: rest => first_remote_write rest
  end.

Definition is_lock_put (ev : option Event) : bool :=
  match ev with Some (RemoteWrite OpLockPut _) => true | None => true | _ => false end.

(** X14. Every run, live or dry, only appends to the history, and its first
    remote write, if it makes any, is the lock put: nothing is written to
    the registry before the lock. *)
Theorem run_writes_lock_first (env : Env) (args : Args) (w0 : World) :
  let (w, code) := run env args w0 in
  exists new, w_log w = w_log w0 ++ new /\ is_lock_put (first_remote_write new) = true.
Proof.
  unfold run, main. unfold_workflow. split_workflow.
  all: eexists; split; [first [rewrite <- ?app_assoc; reflexivity | symmetry; apply app_nil_r]|].
  all: reflexivity.
Qed.

Definition remote_written (log : list Event) : bool :=
  existsb (fun ev => match ev with RemoteWrite _ _ => true | Printed _ => false end) log.

(** X15. A live run that stops before holding the lock (no bucket
    configured, an invalid local registry, a lock found whose information
    reads as a non-empty record, or a failed lock write) exits with 1 and
    neither changes the remote store nor writes to it. *)
Theorem live_run_stopped_before_lock (env : Env) (args : Args) (w0 : World) :
  let gd := get_garden_dir (a_repo_version args) in
  a_dry_run args = false ->
  env_bucket_ok env = false \/
  validate_local_registry (a_local_registry args) gd (a_repo_version args) = false \/
  check_lock_exists (env_lock_name env) gd (w_remote w0) && env_lock_info_truthy env = true \/
  env_lock_put_ok env = false ->
  let (w, code) := run env args w0 in
  code = 1 /\ w_remote w = w_remote w0 /\
  exists new, w_log w = w_log w0 ++ new /\ remote_written new = false.
Proof.
  intros gd Hd Hstop. unfold run, main. fold gd. rewrite Hd.
  unfold_workflow. split_workflow.
  all: repeat match goal with
         | H : negb _ = true |- _ => apply negb_true_iff in H
         | H : negb _ = false |- _ => apply negb_false_iff in H
         end.
  all: try (exfalso; destruct Hstop as [H|[H|[H|H]]]; congruence).
  all: split; [reflexivity|split; [reflexivity|]].
  all: eexists; split; [first [rewrite <- ?app_assoc; reflexivity | symmetry; apply app_nil_r]|].
  all: reflexivity.
Qed.

Lemma live_run_stopped_before_lock_witness :
  let env := mkEnv true "registry.lock" "{}" true false DlOk None (fun st => st) true None true in
  let gd := get_garden_dir (a_repo_version args_publish) in
  let (w, code) := run env args_publish (fresh_world remote_start) in
  code = 1 /\ w_remote w = w_remote (fresh_world remote_start) /\
  exists new, w_log w = w_log (fresh_world remote_start) ++ new /\ remote_written new = false.
Proof.
  intro env.
  apply (live_run_stopped_before_lock env args_publish (fresh_world remote_start)).
  - reflexivity.
  - right; right; right. reflexivity.
Defined.

(** X16. An existing lock object does not stop a live run when its
    information reads as empty or cannot be read ([get_lock_info] falsy):
    the run's first remote write puts its own lock over it. *)
Theorem live_run_overwrites_unreadable_lock (env : Env) (args : Args) (w0 : World) :
  let gd := get_garden_dir (a_repo_version args) in
  let lk := lock_key (env_lock_name env) gd in
  a_dry_run args = false -> env_bucket_ok env = true ->
  validate_local_registry (a_local_registry args) gd (a_repo_version args) = true ->
  check_lock_exists (env_lock_name env) gd (w_remote w0) = true ->
  env_lock_info_truthy env = false -> env_lock_put_ok env = true ->
  let (w, code) := run env args w0 in
  exists new, w_log w = w_log w0 ++ new /\
    first_remote_write new =
      Some (RemoteWrite OpLockPut (put_object lk (Bytes (env_lock_content env)) (w_remote w0))).
Proof.
  intros gd lk Hd Hb Hv Hl Hi Hp. unfold run, main. fold gd. rewrite Hd, Hb, Hv.
  unfold_workflow. split_workflow.
  all: repeat match goal with
         | H : negb _ = true |- _ => apply negb_true_iff in H
         | H : negb _ = false |- _ => apply negb_false_iff in H
         end.
  all: try (exfalso; rewrite Hl, Hi in *; cbn in *; congruence).
  all: eexists; split; [first [rewrite <- ?app_assoc; reflexivity | symmetry; apply app_nil_r]|].
  all: reflexivity.
Qed.

Definition remote_stale_lock : Store :=
  fun k => if String.eqb k "garden/v2/registry.lock" then Some (Bytes "{}") else remote_start k.

Lemma live_run_overwrites_unreadable_lock_witness :
  let env := mkEnv true "registry.lock" "{}" false true DlOk None (fun st => st) true None true in
  let w0 := fresh_world remote_stale_lock in
  let gd := get_garden_dir (a_repo_version args_publish) in
  let lk := lock_key (env_lock_name env) gd in
  check_lock_exists (env_lock_name env) gd (w_remote w0) = true /\
  let (w, code) := run env args_publish w0 in
  exists new, w_log w = w_log w0 ++ new /\
    first_remote_write new =
      Some (RemoteWrite OpLockPut (put_object lk (Bytes (env_lock_content env)) (w_remote w0))).
Proof.
  intros env w0 gd lk. split; [vm_compute; reflexivity|].
  apply (live_run_overwrites_unreadable_lock env args_publish w0).
  - reflexivity.
  - reflexivity.
  - vm_compute; reflexivity.
  - vm_compute; reflexivity.
  - reflexivity.
  - reflexivity.
Defined.

Definition op_index (op : RemoteOp) : nat :=
  match op with OpLockPut => 0 | OpUpload => 1 | OpExternal => 2 | OpRestore => 3 | OpLockRm => 4 end.

(** Whether a history holds a remote write of kind [op]. *)
Definition writes_op (op : RemoteOp) (log : list Event) : bool :=
  existsb (fun ev => match ev with
                     | RemoteWrite op' _ => Nat.eqb (op_index op') (op_index op)
                     | Printed _ => false
                     end) log.

Lemma check_lock_exists_put name gd c st :
  check_lock_exists name gd (put_object (lock_key name gd) c st) = str_contains ".lock" name.
Proof. unfold check_lock_exists, put_object. rewrite String.eqb_refl. reflexivity. Qed.

(** X17. A live run that acquires the lock (no lock found whose
    information reads as a non-empty record, and the lock write succeeds)
    and whose download fails with an error other than an empty remote exits
    with 1 without uploading or restoring anything (no backup was taken
    yet).  When moreover the lock name contains [.lock], no lock object
    existed before and the lock removal succeeds, the cleanup removes the
    lock and the remote store ends as it started. *)
Theorem live_download_error_leaves_remote (env : Env) (args : Args) (w0 : World) :
  let gd := get_garden_dir (a_repo_version args) in
  let lk := lock_key (env_lock_name env) gd in
  a_dry_run args = false -> env_bucket_ok env = true ->
  validate_local_registry (a_local_registry args) gd (a_repo_version args) = true ->
  check_lock_exists (env_lock_name env) gd (w_remote w0) && env_lock_info_truthy env = false ->
  env_lock_put_ok env = true -> env_download env = DlError ->
  let (w, code) := run env args w0 in
  code = 1 /\ w_backup w = None /\
  (exists new, w_log w = w_log w0 ++ new /\
     writes_op OpUpload new = false /\ writes_op OpRestore new = false) /\
  (str_contains ".lock" (env_lock_name env) = true -> w_remote w0 lk = None ->
   env_rm_ok env = true -> forall k, w_remote w k = w_remote w0 k).
Proof.
  intros gd lk Hd Hb Hv Hacq Hp Hdl. unfold run, main. fold gd. rewrite Hd, Hb, Hv.
  unfold_workflow. split_workflow.
  all: repeat match goal with
         | H : negb _ = true |- _ => apply negb_true_iff in H
         | H : negb _ = false |- _ => apply negb_false_iff in H
         end.
  all: try (exfalso; congruence).
  all: split; [reflexivity|split; [reflexivity|split]].
  all: try (eexists; split; [rewrite <- ?app_assoc; reflexivity|split; reflexivity]).
  all: intros Hc Hl Hrm.
  all: try (exfalso; match goal with
                     | H : check_lock_exists _ _ (put_object _ _ _) = false |- _ =>
                         rewrite check_lock_exists_put in H; congruence
                     end).
  all: try congruence.
  intro k. unfold rm_object, put_object. fold lk.
  destruct (String.eqb k lk) eqn:Hk; [|reflexivity].
  apply String.eqb_eq in Hk. subst k. symmetry. exact Hl.
Qed.

Lemma live_download_error_leaves_remote_witness :
  let env := mkEnv true "registry.lock" "{}" true true DlError None (fun st => st) true None true in
  let w0 := fresh_world remote_start in
  let gd := get_garden_dir (a_repo_version args_publish) in
  let lk := lock_key (env_lock_name env) gd in
  let (w, code) := run env args_publish w0 in
  code = 1 /\ w_backup w = None /\
  (exists new, w_log w = w_log w0 ++ new /\
     writes_op OpUpload new = false /\ writes_op OpRestore new = false) /\
  (str_contains ".lock" (env_lock_name env) = true -> w_remote w0 lk = None ->
   env_rm_ok env = true -> forall k, w_remote w k = w_remote w0 k).
Proof.
  intros env w0 gd lk.
  apply (live_download_error_leaves_remote env args_publish w0);
    first [reflexivity | vm_compute; reflexivity].
Defined.

(** X18. A live run whose merge is rejected (a version conflict, after the
    lock and the download) uploads nothing, yet writes to the remote:
    the exception handler re-uploads the backup with [--delete].  The run
    exits with 1. *)
Theorem live_merge_failure_restores (env : Env) (args : Args) (w0 : World) apps_result tools_result out :
  let gd := get_garden_dir (a_repo_version args) in
  let lk := lock_key (env_lock_name env) gd in
  a_dry_run args = false -> env_bucket_ok env = true ->
  validate_local_registry (a_local_registry args) gd (a_repo_version args) = true ->
  check_lock_exists (env_lock_name env) gd (w_remote w0) && env_lock_info_truthy env = false ->
  env_lock_put_ok env = true -> env_download env <> DlError ->
  merge_registries (a_local_registry args)
    (sync_result env gd (put_object lk (Bytes (env_lock_content env)) (w_remote w0))
       (w_working w0))
    (a_repo_version args) (force_entries_of (a_force_name args)) =
    Some (false, apps_result, tools_result, out) ->
  let (w, code) := run env args w0 in
  code = 1 /\
  exists new, w_log w = w_log w0 ++ new /\
    writes_op OpUpload new = false /\ writes_op OpRestore new = true.
Proof.
  intros gd lk Hd Hb Hv Hl Hp Hdl Hm. unfold lk in Hm.
  unfold run, main. fold gd. rewrite Hd, Hb, Hv.
  unfold_workflow. split_workflow.
  all: repeat match goal with
         | H : negb _ = true |- _ => apply negb_true_iff in H
         | H : negb _ = false |- _ => apply negb_false_iff in H
         end.
  all: try (exfalso; congruence).
  all: try (match goal with
            | E : merge_registries _ _ _ _ = _ |- _ =>
                tryif constr_eq E Hm then fail else (rewrite E in Hm; injection Hm as <- <- <- <-)
            end).
  all: try (exfalso; congruence).
  all: split; [reflexivity|].
  all: eexists; split; [rewrite <- ?app_assoc; reflexivity|split; reflexivity].
Qed.

Lemma live_merge_failure_restores_witness :
  let env := env_ok in
  let w0 := fresh_world remote_conflict in
  let gd := get_garden_dir (a_repo_version args_publish) in
  let lk := lock_key (env_lock_name env) gd in
  exists apps_result tools_result out,
  merge_registries (a_local_registry args_publish)
    (sync_result env gd (put_object lk (Bytes (env_lock_content env)) (w_remote w0))
       (w_working w0))
    (a_repo_version args_publish) (force_entries_of (a_force_name args_publish)) =
    Some (false, apps_result, tools_result, out) /\
  let (w, code) := run env args_publish w0 in
  code = 1 /\
  exists new, w_log w = w_log w0 ++ new /\
    writes_op OpUpload new = false /\ writes_op OpRestore new = true.
Proof.
  intros env w0 gd lk.
  destruct (merge_registries (a_local_registry args_publish)
    (sync_result env gd (put_object lk (Bytes (env_lock_content env)) (w_remote w0))
       (w_working w0))
    (a_repo_version args_publish) (force_entries_of (a_force_name args_publish)))
    as [[[[ok ar] tr] out]|] eqn:Hm;
    [|exfalso; vm_compute in Hm; discriminate Hm].
  destruct ok; [exfalso; vm_compute in Hm; discriminate Hm|].
  exists ar, tr, out. split; [reflexivity|].
  apply (live_merge_failure_restores env args_publish w0 ar tr out);
    first [reflexivity | vm_compute; reflexivity | discriminate | exact Hm].
Defined.

(* ------------------------------------------------------------------ *)
(** ** The removal workflow ([registry-remove.py]) *)

(** The loop of [find_entries_to_remove], with its two accumulators. *)
Fixpoint find_entries_loop (entries : list Entry) (name : string)
  (matching remaining : list Entry) : list Entry * list Entry :=
  match entries with
  | [] => (matching, remaining)
  | entry :: rest =>
      if opt_str_eqb (e_name entry) (Some name)
      then find_entries_loop rest name (matching ++ [entry]) remaining
      else find_entries_loop rest name matching (remaining ++ [entry])
  end.

(** [find_entries_to_remove(entries, name)]. *)
Definition find_entries_to_remove (entries : list Entry) (name : string)
  : list Entry * list Entry :=
  find_entries_loop entries name [] [].

Record RemoveArgs := mkRemoveArgs {
  r_repo_version : string;
  r_name : string;
  r_dry_run : bool;
  r_confirm : bool                         (* the answer to the prompt is [yes] *)
}.

(** The dry-run branch of the removal. *)
Definition remove_dry_run_branch (env : Env) (rargs : RemoveArgs) (garden_dir : string)
  : M unit :=
  let* remote_path :=
    (fun w => match download_registry env garden_dir empty_dir false empty_dir w with
              | (w', inl (d, _)) => (w', inl d)
              | (w', inr e) => if is_exception e then (w', inr (SystemExit 1)) else (w', inr e)
              end) in
  let apps_entries := load_registry_json (remote_path "apps.json") in
  let tools_entries := load_registry_json (remote_path "tools.json") in
  let '(apps_matching, _) := find_entries_to_remove apps_entries (r_name rargs) in
  let '(tools_matching, _) := find_entries_to_remove tools_entries (r_name rargs) in
  if Nat.eqb (List.length apps_matching + List.length tools_matching) 0
  then raise (SystemExit 1)
  else raise (SystemExit 0).

(** Steps 1 to 9 of a live removal. *)
Definition remove_live_branch (env : Env) (rargs : RemoveArgs) (garden_dir : string)
  : M unit :=
  let repo_version := r_repo_version rargs in
  let name := r_name rargs in
  (* Step 1: acquire lock *)
  let* _ := (fun w => match acquire_lock env garden_dir w with
                      | (w', inr RuntimeError) =>
                          (let* _ := print LLockHeld in raise (SystemExit 1)) w'
                      | r => r
                      end) in
  let* _ := set_lock_acquired true in
  (* Step 2: backup and download *)
  let* working0 := gets w_working in
  let* backup0 := gets w_backup_dir in
  let* dl := download_registry env garden_dir working0 true backup0 in
  let '(remote_path, backup_path) := dl in
  let* _ := set_download remote_path backup_path in
  (* Step 3: find entries *)
  let apps_entries := load_registry_json (remote_path "apps.json") in
  let tools_entries := load_registry_json (remote_path "tools.json") in
  let '(apps_matching, apps_remaining) := find_entries_to_remove apps_entries name in
  let '(tools_matching, tools_remaining) := find_entries_to_remove tools_entries name in
  if Nat.eqb (List.length apps_matching + List.length tools_matching) 0
  then raise (SystemExit 1) else
  (* Step 5: confirm *)
  if negb (r_confirm rargs) then raise (SystemExit 0) else
  (* Step 6: build the output tree *)
  let images_dir := if String.eqb repo_version "v2" then "images" else "app-garden-images" in
  let output_path : Dir :=
    fun r =>
      if String.eqb r "apps.json" then
        Some (Catalog (match apps_matching with [] => apps_entries | _ => apps_remaining end))
      else if String.eqb r "tools.json" then
        Some (Catalog (match tools_matching with [] => tools_entries | _ => tools_remaining end))
      else match strip_prefix (images_dir ++ "/")%string r with
           | Some _ => remote_path r
           | None => None
           end in
  (* Step 7: upload *)
  let* _ := upload_registry OpUpload (env_upload_fault env) garden_dir output_path in
  let* st := gets w_remote in
  let* _ := write_remote OpExternal (env_interference env st) in
  (* Step 8: verify *)
  let* verified := verify_upload env garden_dir output_path in
  if negb verified then raise RuntimeError else
  (* Step 9: release *)
  let* _ := release_lock env garden_dir in
  set_lock_acquired false.

Definition remove_main (env : Env) (rargs : RemoveArgs) : M unit :=
  let garden_dir := get_garden_dir (r_repo_version rargs) in
  if negb (env_bucket_ok env) then let* _ := print LBucketError in raise (SystemExit 1) else
  let* _ := modify (fun w => mkWorld (w_remote w) (w_working w) (w_backup_dir w) None
                               false false (w_log w)) in
  try_finally
    (try_except
       (if r_dry_run rargs then remove_dry_run_branch env rargs garden_dir
        else remove_live_branch env rargs garden_dir)
       (restore_handler env garden_dir))
    (cleanup env garden_dir).

Definition run_remove (env : Env) (rargs : RemoveArgs) (w0 : World) : World * nat :=
  let '(w, r) := remove_main env rargs w0 in (w, exit_code r).

(** An entry carrying the name. *)
Definition named (name : string) (e : Entry) : bool := opt_str_eqb (e_name e) (Some name).

Lemma find_entries_loop_filter entries name m r :
  find_entries_loop entries name m r =
  (m ++ filter (named name) entries, r ++ filter (fun e => negb (named name e)) entries).
Proof.
  revert m r. induction entries as [|e es IH]; intros m r; cbn [find_entries_loop filter].
  - rewrite !app_nil_r. reflexivity.
  - change (opt_str_eqb (e_name e) (Some name)) with (named name e).
    destruct (named name e); cbn [negb]; rewrite IH, <- app_assoc; reflexivity.
Qed.

Lemma find_entries_to_remove_filter entries name :
  find_entries_to_remove entries name =
  (filter (named name) entries, filter (fun e => negb (named name e)) entries).
Proof. unfold find_entries_to_remove. rewrite find_entries_loop_filter. reflexivity. Qed.

Lemma filter_none_all {A} (f : A -> bool) l :
  filter f l = [] -> filter (fun x => negb (f x)) l = l.
Proof.
  induction l as [|x l IH]; simpl; [reflexivity|].
  destruct (f x); [discriminate|]. intro H. cbn [negb]. rewrite IH by exact H. reflexivity.
Qed.

(** X19. [find_entries_to_remove] splits the entries by their name, each
    side in the original order: the first list holds exactly the entries
    whose [name] field equals the name, the second all the others (entries
    without a name included); no entry is lost or duplicated. *)
Theorem find_entries_to_remove_partition entries name :
  let '(matching, remaining) := find_entries_to_remove entries name in
  matching = filter (fun e => opt_str_eqb (e_name e) (Some name)) entries /\
  remaining = filter (fun e => negb (opt_str_eqb (e_name e) (Some name))) entries /\
  (forall e, In e remaining -> e_name e <> Some name) /\
  List.length matching + List.length remaining = List.length entries.
Proof.
  rewrite find_entries_to_remove_filter. unfold named.
  split; [reflexivity|split; [reflexivity|split]].
  - intros e He Hn. apply filter_In in He as [_ He]. rewrite Hn in He.
    cbn in He. rewrite String.eqb_refl in He. discriminate He.
  - induction entries as [|e es IH]; simpl; [reflexivity|].
    destruct (opt_str_eqb (e_name e) (Some name)); cbn [negb List.length]; lia.
Qed.

Ltac reduce_remove :=
  cbn -[merge_registries validate_local_registry garden_prefix lock_key sync_down
        sync_up put_object rm_object check_lock_exists verify_files copytree
        get_garden_dir sync_result find_entries_to_remove filter named load_registry_json
        strip_prefix].

Ltac split_remove :=
  repeat (reduce_remove; rewrite ?find_entries_to_remove_filter;
          match goal with
          | |- context [match ?x with _ => _ end] =>
              lazymatch type of x with
              | prod _ _ => is_var x; destruct x
              | World => fail
              | _ => let E := fresh "E" in destruct x eqn:E
              end
          end);
  reduce_remove.

(** X20. A live removal that was confirmed and exits with 0 leaves on the
    remote, for [apps.json] and
    [tools.json] each, exactly the entries of the tree downloaded after the
    lock was written whose name differs from the removed one, in their
    order; a catalog that was missing is published as an empty one.  This
    holds whatever other parties wrote before the verification. *)
Theorem remove_success_publishes_remaining (env : Env) (rargs : RemoveArgs) (w0 : World) :
  let gd := get_garden_dir (r_repo_version rargs) in
  let lk := lock_key (env_lock_name env) gd in
  let downloaded := sync_result env gd (put_object lk (Bytes (env_lock_content env)) (w_remote w0))
                      (w_working w0) in
  r_dry_run rargs = false -> r_confirm rargs = true ->
  let (w, code) := run_remove env rargs w0 in
  code = 0 ->
  forall f, f = "apps.json" \/ f = "tools.json" ->
  w_remote w (garden_prefix gd ++ f)%string =
    Some (Catalog (filter (fun e => negb (named (r_name rargs) e))
                     (load_registry_json (downloaded f)))).
Proof.
  intros gd lk dl Hd Hy. unfold run_remove, remove_main. fold gd. rewrite Hd.
  unfold remove_live_branch. rewrite Hy. unfold_workflow. split_remove.
  all: intro Hcode; try discriminate Hcode.
  all: repeat match goal with
         | H : negb _ = true |- _ => apply negb_true_iff in H
         | H : negb _ = false |- _ => apply negb_false_iff in H
         end.
  all: try (exfalso; congruence).
  all: try (exfalso; match goal with
                     | H : (List.length [] + List.length [] =? 0) = false |- _ => discriminate H
                     end).
  all: intros f Hf; destruct Hf as [-> | ->].
  all: rewrite ?rm_object_other
         by (apply lock_key_not_catalog;
             [eapply check_lock_exists_contains; eassumption
             |first [left; reflexivity|right; reflexivity]]).
  all: match goal with
       | V : verify_files _ (sync_down _ _ empty_dir) = true |- _ =>
           first [refine (eq_trans (verified_catalog _ _ _ _ _ V (or_introl eq_refl) eq_refl) _)
                 |refine (eq_trans (verified_catalog _ _ _ _ _ V (or_intror eq_refl) eq_refl) _)]
       end.
  all: first [reflexivity | rewrite filter_none_all; [reflexivity | assumption]].
Qed.

Definition rargs_remove_app : RemoveArgs := mkRemoveArgs "v2" "app" false true.

Lemma remove_success_publishes_remaining_witness :
  snd (run_remove env_plain_lock rargs_remove_app (fresh_world remote_start)) = 0 /\
  let gd := get_garden_dir (r_repo_version rargs_remove_app) in
  let lk := lock_key (env_lock_name env_plain_lock) gd in
  let downloaded := sync_result env_plain_lock gd
                      (put_object lk (Bytes (env_lock_content env_plain_lock))
                         (w_remote (fresh_world remote_start)))
                      (w_working (fresh_world remote_start)) in
  let (w, code) := run_remove env_plain_lock rargs_remove_app (fresh_world remote_start) in
  code = 0 ->
  forall f, f = "apps.json" \/ f = "tools.json" ->
  w_remote w (garden_prefix gd ++ f)%string =
    Some (Catalog (filter (fun e => negb (named (r_name rargs_remove_app) e))
                     (load_registry_json (downloaded f)))).
Proof.
  split; [vm_compute; reflexivity|].
  apply (remove_success_publishes_remaining env_plain_lock rargs_remove_app (fresh_world remote_start));
    reflexivity.
Defined.

Lemma count_matches_zero {A} (f : A -> bool) a b :
  (List.length (filter f a) + List.length (filter f b) =? 0) = negb (existsb f (a ++ b)).
Proof.
  rewrite existsb_app.
  assert (H : forall l, (List.length (filter f l) =? 0) = negb (existsb f l)).
  { induction l as [|x l IH]; simpl; [reflexivity|]. destruct (f x); simpl; [reflexivity|exact IH]. }
  rewrite negb_orb, <- (H a), <- (H b).
  destruct (List.length (filter f a)), (List.length (filter f b)); reflexivity.
Qed.

Lemma existsb_false_filter {A} (f : A -> bool) l :
  existsb f l = false -> filter f l = [].
Proof.
  induction l as [|x l IH]; simpl; [reflexivity|].
  intros H. apply orb_false_iff in H as [Hx Hl]. rewrite Hx. exact (IH Hl).
Qed.

Lemma existsb_app_false_filter {A} (f : A -> bool) a b :
  existsb f (a ++ b) = false -> filter f a = [] /\ filter f b = [].
Proof.
  rewrite existsb_app. intros H. apply orb_false_iff in H as [Ha Hb].
  split; apply existsb_false_filter; assumption.
Qed.

(** A catalog file that [load_registry_json] reads without raising and as
    the model reads it: missing, or a JSON array (a [Catalog]). *)
Definition array_or_missing (c : option Content) : bool :=
  match c with Some (Bytes _) => false | _ => true end.

(** X21. A live removal that acquires the lock (no lock found whose
    information reads as a non-empty record, and the lock write succeeds),
    downloads a tree whose [apps.json] and [tools.json] are each missing or
    a JSON array, and then finds no entry of the name, or whose prompt is
    not answered [yes], uploads and restores nothing.  It exits with 1 when
    nothing matched and with 0 when the user declined.  When moreover the
    lock name contains [.lock], no lock object existed before and the lock
    removal succeeds, the cleanup removes the lock and the remote store ends
    as it started. *)
Theorem remove_without_upload_leaves_remote (env : Env) (rargs : RemoveArgs) (w0 : World) :
  let gd := get_garden_dir (r_repo_version rargs) in
  let lk := lock_key (env_lock_name env) gd in
  let downloaded := sync_result env gd (put_object lk (Bytes (env_lock_content env)) (w_remote w0))
                      (w_working w0) in
  let has_match := existsb (named (r_name rargs))
                     (load_registry_json (downloaded "apps.json")
                      ++ load_registry_json (downloaded "tools.json")) in
  r_dry_run rargs = false -> env_bucket_ok env = true ->
  check_lock_exists (env_lock_name env) gd (w_remote w0) && env_lock_info_truthy env = false ->
  env_lock_put_ok env = true -> env_download env <> DlError ->
  array_or_missing (downloaded "apps.json") = true ->
  array_or_missing (downloaded "tools.json") = true ->
  has_match = false \/ r_confirm rargs = false ->
  let (w, code) := run_remove env rargs w0 in
  code = (if has_match then 0 else 1) /\
  (exists new, w_log w = w_log w0 ++ new /\
     writes_op OpUpload new = false /\ writes_op OpRestore new = false) /\
  (str_contains ".lock" (env_lock_name env) = true -> w_remote w0 lk = None ->
   env_rm_ok env = true -> forall k, w_remote w k = w_remote w0 k).
Proof.
  intros gd lk dl hm Hd Hb Hacq Hp Hdl _ _ Hcase.
  unfold hm, dl, lk in *. clear hm dl lk.
  unfold run_remove, remove_main. fold gd. rewrite Hd, Hb.
  unfold remove_live_branch.
  destruct Hcase as [Hh|Hf];
    [pose proof (existsb_app_false_filter _ _ _ Hh) as [Hna Hnt] | rewrite Hf].
  all: unfold_workflow; split_remove.
  all: repeat match goal with
         | H : negb _ = true |- _ => apply negb_true_iff in H
         | H : negb _ = false |- _ => apply negb_false_iff in H
         end.
  all: try (exfalso; congruence).
  all: try (exfalso; match goal with
                     | H : (List.length [] + List.length [] =? 0) = false |- _ => discriminate H
                     end).
  all: try (match goal with
            | H : (List.length (filter _ _) + List.length (filter _ _) =? 0) = _ |- _ =>
                rewrite count_matches_zero in H
            end).
  all: repeat match goal with
         | H : negb _ = true |- _ => apply negb_true_iff in H
         | H : negb _ = false |- _ => apply negb_false_iff in H
         end.
  all: try (exfalso; congruence).
  all: split; [reflexivity|split].
  all: try (eexists; split; [rewrite <- ?app_assoc; reflexivity|split; reflexivity]).
  all: intros Hc Hl Hrm.
  all: try (exfalso; match goal with
                     | H : check_lock_exists _ _ (put_object _ _ _) = false |- _ =>
                         rewrite check_lock_exists_put in H; congruence
                     end).
  all: try congruence.
  all: intro k; unfold rm_object, put_object.
  all: destruct (String.eqb k (lock_key (env_lock_name env) gd)) eqn:Hk; [|reflexivity].
  all: apply String.eqb_eq in Hk; subst k; symmetry; exact Hl.
Qed.

Lemma remove_without_upload_leaves_remote_witness :
  let rargs := mkRemoveArgs "v2" "nosuch" false true in
  let w0 := fresh_world remote_start in
  let gd := get_garden_dir (r_repo_version rargs) in
  let lk := lock_key (env_lock_name env_ok) gd in
  let downloaded := sync_result env_ok gd
                      (put_object lk (Bytes (env_lock_content env_ok)) (w_remote w0))
                      (w_working w0) in
  let has_match := existsb (named (r_name rargs))
                     (load_registry_json (downloaded "apps.json")
                      ++ load_registry_json (downloaded "tools.json")) in
  let (w, code) := run_remove env_ok rargs w0 in
  code = (if has_match then 0 else 1) /\
  (exists new, w_log w = w_log w0 ++ new /\
     writes_op OpUpload new = false /\ writes_op OpRestore new = false) /\
  (str_contains ".lock" (env_lock_name env_ok) = true -> w_remote w0 lk = None ->
   env_rm_ok env_ok = true -> forall k, w_remote w k = w_remote w0 k).
Proof.
  intros rargs w0 gd lk downloaded has_match.
  apply (remove_without_upload_leaves_remote env_ok rargs w0);
    first [reflexivity | discriminate | vm_compute; reflexivity | left; vm_compute; reflexivity].
Defined.

(** X22. A removal with [--dry-run] never writes to the remote store: it
    ends with the store unchanged and no remote write in its log.  When the
    downloaded [apps.json] and [tools.json] are each missing or a JSON
    array, its exit status is: with a bucket configured, 1 when the download
    fails or no entry of the downloaded catalogs carries the name, and 0
    otherwise; without a bucket, 1. *)
Theorem remove_dry_run_never_writes (env : Env) (rargs : RemoveArgs) (w0 : World) :
  let gd := get_garden_dir (r_repo_version rargs) in
  let downloaded := sync_result env gd (w_remote w0) empty_dir in
  r_dry_run rargs = true ->
  let (w, code) := run_remove env rargs w0 in
  w_remote w = w_remote w0 /\
  (exists new, w_log w = w_log w0 ++ new /\ remote_written new = false) /\
  (array_or_missing (downloaded "apps.json") = true ->
   array_or_missing (downloaded "tools.json") = true ->
   code = (if env_bucket_ok env then
            match env_download env with
            | DlError => 1
            | _ => if existsb (named (r_name rargs))
                        (load_registry_json (downloaded "apps.json")
                         ++ load_registry_json (downloaded "tools.json"))
                   then 0 else 1
            end
          else 1)).
Proof.
  intros gd dl Hd. unfold dl. clear dl.
  unfold run_remove, remove_main. fold gd. rewrite Hd.
  unfold remove_dry_run_branch.
  unfold_workflow; split_remove.
  all: repeat match goal with
         | H : negb _ = true |- _ => apply negb_true_iff in H
         | H : negb _ = false |- _ => apply negb_false_iff in H
         end.
  all: try (exfalso; congruence).
  all: try (match goal with
            | H : (List.length (filter _ _) + List.length (filter _ _) =? 0) = _ |- _ =>
                rewrite count_matches_zero in H
            end).
  all: repeat match goal with
         | H : negb _ = true |- _ => apply negb_true_iff in H
         | H : negb _ = false |- _ => apply negb_false_iff in H
         end.
  all: try (exfalso; congruence).
  all: split; [reflexivity|split; [|intros _ _; reflexivity]].
  all: eexists; split; [first [rewrite <- ?app_assoc; reflexivity | symmetry; apply app_nil_r]|reflexivity].
Qed.

Lemma remove_dry_run_never_writes_witness :
  let rargs := mkRemoveArgs "v2" "app" true true in
  let w0 := fresh_world remote_start in
  let gd := get_garden_dir (r_repo_version rargs) in
  let downloaded := sync_result env_ok gd (w_remote w0) empty_dir in
  let (w, code) := run_remove env_ok rargs w0 in
  w_remote w = w_remote w0 /\
  (exists new, w_log w = w_log w0 ++ new /\ remote_written new = false) /\
  (array_or_missing (downloaded "apps.json") = true ->
   array_or_missing (downloaded "tools.json") = true ->
   code = (if env_bucket_ok env_ok then
            match env_download env_ok with
            | DlError => 1
            | _ => if existsb (named (r_name rargs))
                        (load_registry_json (downloaded "apps.json")
                         ++ load_registry_json (downloaded "tools.json"))
                   then 0 else 1
            end
          else 1)).
Proof.
  intros rargs w0 gd downloaded.
  apply (remove_dry_run_never_writes env_ok rargs w0). reflexivity.
Defined.
